(** * hpmaster: the word retrieval and statistics lambda

    A shallow embedding of the `words` lambda (package main): the word
    catalog cache built by [init], the user cache, the performance query,
    the reservoir sampler, the word selector, the statistics updater and
    the two request handlers, followed by the properties of the design
    document that can be settled on this code. *)

From Stdlib Require Import ZArith QArith Qabs Qpower Lia Lqa Ascii.
From stdpp Require Import gmap strings list fin_maps.

Local Open Scope Z_scope.

(** ** Go values *)

(** Go's [int] on the lambda's 64-bit targets. *)
Definition max_int : Z := 2 ^ 63 - 1.
Definition min_int : Z := - 2 ^ 63.

(** Two's complement wrap-around of an [int] result. *)
Definition wrap_int (z : Z) : Z := (z + 2 ^ 63) mod 2 ^ 64 - 2 ^ 63.

(** What a call returns: a value, a non-nil [error], or a run-time panic
    (index out of range, negative slice bound, ...), which ends the
    invocation. *)
Inductive outcome (A : Type) : Type :=
  | Ok (a : A)
  | Err
  | Panic.
Arguments Ok {A} a.
Arguments Err {A}.
Arguments Panic {A}.

(** ** Records of the package *)

(** [type Word struct]; the fields carry their JSON names. *)
Record Word : Type := mkWord {
  word : string;
  correct : string;
  incorrect : list string
}.

(** [type WordResults struct]. *)
Record WordResults : Type := mkWordResults {
  wr_word : string;
  isCorrect : bool
}.

(** [type WordStatistics struct].  [attempts] and [success] are Go ints.
    [successRatio] is the number kept by the store: the updater writes it
    as the decimal text produced by [%f], so it is a rational here. *)
Record WordStatistics : Type := mkWordStatistics {
  userId : string;
  ws_word : string;
  attempts : Z;
  success : Z;
  successRatio : Q
}.

(** An item of the Users table (the attributes the lambda reads). *)
Record User : Type := mkUser {
  u_userId : string;
  u_email : string
}.

#[global] Instance Word_eq_dec : EqDecision Word.
Proof. solve_decision. Defined.

(** ** float32 arithmetic of the ratio

    [float32(Success) / float32(Attempts)] followed by
    [fmt.Sprintf("%f", _)].  A finite float32 is the rational it denotes;
    the quotients formed here stay far inside the normal range. *)

(** Nearest integer, ties to even. *)
Definition round_half_even (q : Q) : Z :=
  let n := Qnum q in
  let d := Zpos (Qden q) in
  let f := n / d in
  let r2 := 2 * (n mod d) in
  if r2 <? d then f
  else if d <? r2 then f + 1
  else if Z.even f then f else f + 1.

Definition pow2 (k : Z) : Q :=
  if 0 <=? k then inject_Z (2 ^ k) else / inject_Z (2 ^ (- k)).

(** floor (log2 q) for q > 0. *)
Definition ilog2 (q : Q) : Z :=
  let e := Z.log2 (Qnum q) - Z.log2 (Zpos (Qden q)) in
  if Qle_bool (pow2 e) q then e else e - 1.

(** Rounding of a rational to the nearest binary32 value (24-bit
    significand, ties to even, gradual underflow below 2^-126). *)
Definition round32 (q : Q) : Q :=
  if Qeq_bool q 0 then 0%Q
  else
    let a := Qabs q in
    let ulp := pow2 (Z.max (ilog2 a) (-126) - 23) in
    let r := (inject_Z (round_half_even (a / ulp)%Q) * ulp)%Q in
    Qred (if Qnum q <? 0 then - r else r)%Q.

(** [float32(n)] for an int. *)
Definition float32_of_int (n : Z) : Q := round32 (inject_Z n).

(** The decimal with six fractional digits printed by [%f]. *)
Definition sprintf_f (x : Q) : Q :=
  Qred (round_half_even (x * inject_Z 1000000)%Q # 1000000).

(** The text of [:successRatio] as a number.  A zero divisor makes the
    quotient an infinity or a NaN, whose text is not a number. *)
Definition ratio_text (succ att : Z) : option Q :=
  if Qeq_bool (float32_of_int att) 0 then None
  else Some (sprintf_f (round32 (float32_of_int succ / float32_of_int att)%Q)).

(** ** The store

    DynamoDB as the lambda sees it: the three tables, the calls issued
    so far and, for every call, whether the service answers it with an
    error.  A failed call leaves the tables as they were. *)

Definition wordsTableName : string := "Words".
Definition usersTableName : string := "Users".
Definition wordStatsTableName : string := "WordStatistics".

Inductive Call : Type :=
  | Scan (table : string)
  | Query (table index key : string) (Limit : option Z)
  | GetItem (table : string) (key : string * string)
  | UpdateItem (table : string) (key : string * string)
               (att succ : Z) (ratio : option Q).

Record DB : Type := mkDB {
  Words : list Word;
  Users : list User;
  Stats : gmap (string * string) WordStatistics;
  calls : list Call;
  fault : nat -> bool
}.

(** The next call fails iff [fault] says so at its position. *)
Definition failing (db : DB) : bool := fault db (length (calls db)).

Definition issue (c : Call) (db : DB) : DB :=
  mkDB (Words db) (Users db) (Stats db) (calls db ++ [c]) (fault db).

Definition db_Scan_words (db : DB) : outcome (list Word) * DB :=
  let db' := issue (Scan wordsTableName) db in
  if failing db then (Err, db') else (Ok (Words db), db').

(** Ascending order of the [userId-successRatio-index]. *)
Fixpoint insert_by_ratio (x : WordStatistics) (l : list WordStatistics)
  : list WordStatistics :=
  match l with
  | [] => [x]
  | y :: l' =>
      if Qle_bool (successRatio x) (successRatio y) then x :: l
      else y :: insert_by_ratio x l'
  end.

Definition sort_by_ratio (l : list WordStatistics) : list WordStatistics :=
  foldr insert_by_ratio [] l.

(** [Query] on the statistics index: the items of one user, weakest
    ratio first, at most [Limit] of them.  Whether the service accepts a
    [Limit] below 1 is not visible in the package; a refusal is one of
    the errors [fault] stands for. *)
Definition db_Query_stats (userID : string) (Limit : Z) (db : DB)
  : outcome (list WordStatistics) * DB :=
  let db' := issue (Query wordStatsTableName "userId-successRatio-index"
                          userID (Some Limit)) db in
  if failing db then (Err, db')
  else
    let items := filter (λ s, userId s = userID) (map_to_list (Stats db)).*2 in
    (Ok (take (Z.to_nat Limit) (sort_by_ratio items)), db').

(** [Query] on the [email-userId-index] of the Users table. *)
Definition db_Query_users (email : string) (db : DB)
  : outcome (list User) * DB :=
  let db' := issue (Query usersTableName "email-userId-index" email None) db in
  if failing db then (Err, db')
  else (Ok (filter (λ u, u_email u = email) (Users db)), db').

Definition db_GetItem (key : string * string) (db : DB)
  : outcome (option WordStatistics) * DB :=
  let db' := issue (GetItem wordStatsTableName key) db in
  if failing db then (Err, db') else (Ok (Stats db !! key), db').

(** [UpdateItem] with [SET attempts = :attempts, success = :success,
    successRatio = :successRatio]: one all-or-nothing write of the three
    attributes, creating the item under its key when it is absent.  A
    [:successRatio] that is not a number is refused by the service. *)
Definition db_UpdateItem (key : string * string) (att succ : Z)
    (ratio : option Q) (db : DB) : outcome unit * DB :=
  let db' := issue (UpdateItem wordStatsTableName key att succ ratio) db in
  if failing db then (Err, db')
  else
    match ratio with
    | None => (Err, db')
    | Some q =>
        (Ok (),
         mkDB (Words db') (Users db')
              (<[key := mkWordStatistics key.1 key.2 att succ q]> (Stats db'))
              (calls db') (fault db'))
    end.

(** ** The random source (math/rand's global generator)

    [algo] is the generator: the stream of raw outputs that follows a
    seed.  [Seed] restarts the stream; [Intn n] consumes one output and
    panics for [n <= 0]. *)
Record RandSrc : Type := mkRand {
  algo : Z -> nat -> Z;
  seed : Z;
  pos : nat
}.

Definition Seed (s : Z) (r : RandSrc) : RandSrc := mkRand (algo r) s 0.

Definition Intn (n : Z) (r : RandSrc) : outcome (Z * RandSrc) :=
  if n <=? 0 then Panic
  else Ok (algo r (seed r) (pos r) mod n, mkRand (algo r) (seed r) (S (pos r))).

(** ** Package-level variables *)
Record Globals : Type := mkGlobals {
  userCache : gmap string string;
  cachedWords : gmap string Word;
  initErr : bool;
  rnd : RandSrc
}.

Definition set_rnd (r : RandSrc) (g : Globals) : Globals :=
  mkGlobals (userCache g) (cachedWords g) (initErr g) r.

Definition set_userCache (c : gmap string string) (g : Globals) : Globals :=
  mkGlobals c (cachedWords g) (initErr g) (rnd g).

(** ** init and fetchWordsFromDynamoDB *)

Definition fetchWordsFromDynamoDB (db : DB) : outcome (list Word) * DB :=
  db_Scan_words db.

(** The [for _, word := range words] loop of [init]. *)
Definition load_cache (words : list Word) : gmap string Word :=
  foldl (λ m w, <[word w := w]> m) ∅ words.

Definition init (r : RandSrc) (db : DB) : Globals * DB :=
  match fetchWordsFromDynamoDB db with
  | (Ok words, db') =>
      (mkGlobals ∅ (load_cache words) (bool_decide (length words = 0%nat)) r, db')
  | (_, db') => (mkGlobals ∅ ∅ true r, db')
  end.

(** ** getPoorPerformanceWords *)

Definition getPoorPerformanceWords (userID : string) (limit : Z)
    (g : Globals) (db : DB) : outcome (list Word) * DB :=
  match db_Query_stats userID (limit ÷ 2) db with
  | (Ok items, db') =>
      let poorPerformanceWords := ws_word <$> items in
      (Ok (omap (λ w, cachedWords g !! w) poorPerformanceWords), db')
  | (_, db') => (Err, db')
  end.

(** ** getRandomWords

    [order] ([ws] in the loop) is the sequence in which this execution
    of the [range] statement visits the entries of [cachedWords]; the
    language leaves it unspecified.  [i] counts visited entries and
    cannot wrap.  An assignment [randomWords[r] = word] outside the
    slice is a panic. *)
Fixpoint reservoir (limit : Z) (ws : list (string * Word)) (i : Z)
    (randomWords : list Word) (r : RandSrc) : outcome (list Word * RandSrc) :=
  match ws with
  | [] => Ok (randomWords, r)
  | (_, w) :: rest =>
      if i <? limit then reservoir limit rest (i + 1) (randomWords ++ [w]) r
      else
        match Intn (i + 1) r with
        | Ok (k, r') =>
            if k <? limit then
              if bool_decide (Z.to_nat k < length randomWords)%nat
              then reservoir limit rest (i + 1) (<[Z.to_nat k := w]> randomWords) r'
              else Panic
            else reservoir limit rest (i + 1) randomWords r'
        | _ => Panic
        end
  end.

Definition getRandomWords (limit : Z) (order : list (string * Word))
    (now : Z) (g : Globals) : outcome (list Word) * Globals :=
  match reservoir limit order 0 [] (Seed now (rnd g)) with
  | Ok (randomWords, r') => (Ok randomWords, set_rnd r' g)
  | _ => (Panic, set_rnd (Seed now (rnd g)) g)
  end.

(** ** getWords *)

(** The two loops that append the words not yet in [seenWords]. *)
Fixpoint add_unseen (ws : list Word) (allWords : list Word)
    (seenWords : gmap string bool) : list Word * gmap string bool :=
  match ws with
  | [] => (allWords, seenWords)
  | w :: rest =>
      match seenWords !! word w with
      | Some _ => add_unseen rest allWords seenWords
      | None => add_unseen rest (allWords ++ [w]) (<[word w := true]> seenWords)
      end
  end.

Definition getWords (userID : string) (limit : Z)
    (order : list (string * Word)) (now : Z) (g : Globals) (db : DB)
  : outcome (list Word) * Globals * DB :=
  match getPoorPerformanceWords userID limit g db with
  | (Ok poorPerformanceWords, db') =>
      if limit <? 0 then (Panic, g, db')
      else
        let '(allWords, seenWords) := add_unseen poorPerformanceWords [] ∅ in
        if Z.of_nat (length allWords) <? limit then
          match getRandomWords (limit - Z.of_nat (length allWords)) order now g with
          | (Ok randomWords, g') =>
              let '(allWords, _) := add_unseen randomWords allWords seenWords in
              if limit <? Z.of_nat (length allWords)
              then (Ok (take (Z.to_nat limit) allWords), g', db')
              else (Ok allWords, g', db')
          | (_, g') => (Panic, g', db')
          end
        else if limit <? Z.of_nat (length allWords)
        then (Ok (take (Z.to_nat limit) allWords), g, db')
        else (Ok allWords, g, db')
  | (_, db') => (Err, g, db')
  end.

(** ** The request and the response *)

(** [event.RequestContext.Authorizer]: the ["email"] entry when it is a
    string, and the ["claims"] entry when it is a map, with that map's
    ["email"] when it is a string. *)
Record Authorizer : Type := mkAuthorizer {
  auth_email : option string;
  auth_claims : option (option string)
}.

(** [json_body] is what [json.Unmarshal] makes of [event.Body]: [None]
    when it reports an error. *)
Record Event : Type := mkEvent {
  authorizer : Authorizer;
  QueryStringParameters : gmap string string;
  json_body : option (list WordResults)
}.

Inductive ResponseBody : Type :=
  | Text (s : string)
  | Json (ws : list Word).

Record Response : Type := mkResponse {
  StatusCode : Z;
  Body : ResponseBody
}.

(** ** strconv.Atoi *)

Definition digit_of (c : ascii) : option Z :=
  let n := Z.of_nat (nat_of_ascii c) in
  if (48 <=? n) && (n <=? 57) then Some (n - 48) else None.

Fixpoint digits (s : string) (acc : Z) : option Z :=
  match s with
  | EmptyString => Some acc
  | String c s' =>
      match digit_of c with
      | Some d => digits s' (acc * 10 + d)
      | None => None
      end
  end.

(** An optional sign, then one or more decimal digits, within the range
    of [int]; anything else is an error. *)
Definition Atoi (s : string) : option Z :=
  match s with
  | EmptyString => None
  | String c rest =>
      let '(neg, body) :=
        if Ascii.eqb c "-" then (true, rest)
        else if Ascii.eqb c "+" then (false, rest)
        else (false, s) in
      match body with
      | EmptyString => None
      | _ =>
          match digits body 0 with
          | Some n =>
              let v := if neg then - n else n in
              if (min_int <=? v) && (v <=? max_int) then Some v else None
          | None => None
          end
      end
  end.

(** ** extractEmail and getUserIdByEmail *)

(** The e-mail address, or the text of the error. *)
Definition extractEmail (event : Event) : string + string :=
  match auth_email (authorizer event) with
  | Some email => inl email
  | None =>
      match auth_claims (authorizer event) with
      | Some (Some emailClaim) => inl emailClaim
      | Some None => inr "Unauthorized: Email not found"
      | None => inr "Unauthorized"
      end
  end.

(** One invocation at a time runs here, so the second look at the cache
    under the mutex sees what the first one saw. *)
Definition getUserIdByEmail (email : string) (g : Globals) (db : DB)
  : outcome string * Globals * DB :=
  match userCache g !! email with
  | Some userId => (Ok userId, g, db)
  | None =>
      match db_Query_users email db with
      | (Ok [], db') => (Err, g, db')
      | (Ok (u :: _), db') =>
          (Ok (u_userId u),
           set_userCache (<[email := u_userId u]> (userCache g)) g, db')
      | (_, db') => (Err, g, db')
      end
  end.

(** ** handleGetWords *)

Definition handleGetWords (event : Event) (order : list (string * Word))
    (now : Z) (g : Globals) (db : DB) : outcome Response * Globals * DB :=
  match extractEmail event with
  | inl userEmail =>
      let numWordsStr := default "" (QueryStringParameters event !! "numWords") in
      let numWordsStr := if String.eqb numWordsStr "" then "10" else numWordsStr in
      match Atoi numWordsStr with
      | Some numWords =>
          if numWords <=? 0
          then (Ok (mkResponse 400 (Text "Invalid numWords parameter")), g, db)
          else
            match getUserIdByEmail userEmail g db with
            | (Ok userId, g1, db1) =>
                match getWords userId numWords order now g1 db1 with
                | (Ok words, g2, db2) => (Ok (mkResponse 200 (Json words)), g2, db2)
                | (Err, g2, db2) =>
                    (Ok (mkResponse 500 (Text "Internal server error")), g2, db2)
                | (Panic, g2, db2) => (Panic, g2, db2)
                end
            | (_, g1, db1) => (Ok (mkResponse 400 (Text "User not found")), g1, db1)
            end
      | None => (Ok (mkResponse 400 (Text "Invalid numWords parameter")), g, db)
      end
  | inr err => (Ok (mkResponse 401 (Text ("%v" +:+ err))), g, db)
  end.

(** ** updateWordStatistics *)

(** What a caller holds between its two store calls: the key and the
    values it is about to write. *)
Record Pending : Type := mkPending {
  p_key : string * string;
  p_attempts : Z;
  p_success : Z;
  p_ratio : option Q
}.

(** [UnmarshalMap] into the struct: a stored number outside the range of
    [int] is an error. *)
Definition in_int (z : Z) : bool := (min_int <=? z) && (z <=? max_int).

(** Lines 383..402: the struct read or the zero struct, then the two
    increments and the ratio. *)
Definition bump (userId0 : string) (result : WordResults)
    (item : option WordStatistics) : outcome Pending :=
  let start :=
    match item with
    | Some stored =>
        if in_int (attempts stored) && in_int (success stored)
        then Ok (attempts stored, success stored) else Err
    | None => Ok (0, 0)
    end in
  match start with
  | Ok (att, succ) =>
      let att := wrap_int (att + 1) in
      let succ := if isCorrect result then wrap_int (succ + 1) else succ in
      Ok (mkPending (userId0, wr_word result) att succ (ratio_text succ att))
  | _ => Err
  end.

(** First half: [GetItem] and the computation in memory. *)
Definition uws_read (userId0 : string) (result : WordResults) (db : DB)
  : outcome Pending * DB :=
  match db_GetItem (userId0, wr_word result) db with
  | (Ok item, db') => (bump userId0 result item, db')
  | (_, db') => (Err, db')
  end.

(** Second half: [UpdateItem]. *)
Definition uws_write (p : Pending) (db : DB) : outcome unit * DB :=
  db_UpdateItem (p_key p) (p_attempts p) (p_success p) (p_ratio p) db.

Definition updateWordStatistics (userId0 : string) (result : WordResults)
    (db : DB) : outcome unit * DB :=
  match uws_read userId0 result db with
  | (Ok p, db') => uws_write p db'
  | (_, db') => (Err, db')
  end.

(** ** handleResults *)

(** The [for _, result := range wordResults] loop: the first error ends
    it. *)
Fixpoint update_each (userId0 : string) (wordResults : list WordResults)
    (db : DB) : outcome unit * DB :=
  match wordResults with
  | [] => (Ok (), db)
  | result :: rest =>
      match updateWordStatistics userId0 result db with
      | (Ok _, db') => update_each userId0 rest db'
      | (_, db') => (Err, db')
      end
  end.

Definition handleResults (event : Event) (g : Globals) (db : DB)
  : Response * Globals * DB :=
  match extractEmail event with
  | inl userEmail =>
      match getUserIdByEmail userEmail g db with
      | (Ok userId0, g1, db1) =>
          match json_body event with
          | Some wordResults =>
              match update_each userId0 wordResults db1 with
              | (Ok _, db2) =>
                  (mkResponse 200 (Text "Word resultss successfully uploaded"), g1, db2)
              | (_, db2) =>
                  (mkResponse 500 (Text "Failed to update statistics"), g1, db2)
              end
          | None => (mkResponse 400 (Text "Invalid request body"), g1, db1)
          end
      | (_, g1, db1) => (mkResponse 400 (Text "User not found"), g1, db1)
      end
  | inr err => (mkResponse 401 (Text ("%v" +:+ err)), g, db)
  end.

(** ** Concurrent callers of updateWordStatistics

    Invocations share nothing but the store.  Each store call is one
    step; between its [GetItem] and its [UpdateItem] a caller holds the
    values it computed in memory. *)
Inductive Caller : Type :=
  | Ready (userId0 : string) (result : WordResults)
  | Loaded (p : Pending)
  | Returned (o : outcome unit).

Definition caller_step (c : Caller) (db : DB) : Caller * DB :=
  match c with
  | Ready userId0 result =>
      match uws_read userId0 result db with
      | (Ok p, db') => (Loaded p, db')
      | (_, db') => (Returned Err, db')
      end
  | Loaded p =>
      let '(o, db') := uws_write p db in (Returned o, db')
  | Returned o => (Returned o, db)
  end.

(** A schedule names, step by step, the caller that moves next. *)
Fixpoint run (schedule : list nat) (cs : list Caller) (db : DB)
  : list Caller * DB :=
  match schedule with
  | [] => (cs, db)
  | t :: rest =>
      match cs !! t with
      | Some c =>
          let '(c', db') := caller_step c db in
          run rest (<[t := c']> cs) db'
      | None => run rest cs db
      end
  end.

(** ** Notions used in the statements *)

(** Every entry of the catalog sits under its own word. *)
Definition keyed (m : gmap string Word) : Prop :=
  ∀ k w, m !! k = Some w → word w = k.

(** The request with its [numWords] parameter set to [s]. *)
Definition with_numWords (s : string) (event : Event) : Event :=
  mkEvent (authorizer event)
          (<["numWords"%string := s]> (QueryStringParameters event))
          (json_body event).

(** The counters of a pair, read as zero when the record is absent. *)
Definition counters (db : DB) (key : string * string) : Z * Z :=
  match Stats db !! key with
  | Some s => (attempts s, success s)
  | None => (0, 0)
  end.

(** What an outcome adds to [success]. *)
Definition outcome_value (b : bool) : Z := if b then 1 else 0.


(** ** A catalog to try the definitions on *)
Module Scenario.

Definition A := mkWord "A" "a" [].
Definition B := mkWord "B" "b" [].
Definition C := mkWord "C" "c" [].
Definition D := mkWord "D" "d" [].
Definition E := mkWord "E" "e" [].

Definition no_faults : nat -> bool := λ _, false.

(** The user [u1] has statistics for C (ratio 0.2) and D (ratio 0.4). *)
Definition stats : gmap (string * string) WordStatistics :=
  <[("u1", "C") := mkWordStatistics "u1" "C" 5 1 (1 # 5)]>
  (<[("u1", "D") := mkWordStatistics "u1" "D" 5 2 (2 # 5)]> ∅).

Definition db0 : DB :=
  mkDB [A; B; C; D; E] [mkUser "u1" "u1@example.org"] stats [] no_faults.

(** A generator whose every raw output is [k]. *)
Definition const_rand (k : Z) : RandSrc := mkRand (λ _ _, k) 0 0.

Definition g0 (k : Z) : Globals := (init (const_rand k) db0).1.
Definition db1 : DB := (init (const_rand 0) db0).2.

Definition order_CABDE : list (string * Word) :=
  [("C", C); ("A", A); ("B", B); ("D", D); ("E", E)].
Definition order_ABCDE : list (string * Word) :=
  [("A", A); ("B", B); ("C", C); ("D", D); ("E", E)].

Definition with_email (qs : gmap string string) : Event :=
  mkEvent (mkAuthorizer (Some "u1@example.org") None) qs None.

Definition right_A : WordResults := mkWordResults "A" true.

End Scenario.


(** ** HandleRequest *)

(** The request: [event.RequestContext.HTTPMethod] and the parts of the
    event the two handlers read. *)
Record Request : Type := mkRequest {
  HTTPMethod : string;
  req_event : Event
}.

(** [None]: [log.Fatalf] ended the process. *)
Definition HandleRequest (req : Request) (order : list (string * Word))
    (now : Z) (g : Globals) (db : DB)
  : option (outcome Response * Globals * DB) :=
  if initErr g then None
  else if String.eqb (HTTPMethod req) "GET"
  then Some (handleGetWords (req_event req) order now g db)
  else if String.eqb (HTTPMethod req) "POST"
  then let '(resp, g', db') := handleResults (req_event req) g db in
       Some (Ok resp, g', db')
  else Some (Ok (mkResponse 405 (Text "Method Not Allowed")), g, db).

(** ** The first version of the lambda (src/lambdas/words/main.go, first
    program): no users, no statistics, a bounded scan. *)
Module First.

(** [Scan] with [Limit]: at most [Limit] items, in scan order. *)
Definition getWords (limit : Z) (db : DB) : outcome (list Word) * DB :=
  let db' := issue (Scan wordsTableName) db in
  if failing db then (Err, db')
  else (Ok (take (Z.to_nat limit) (Words db)), db').

Definition HandleRequest (event : Event) (db : DB) : Response * DB :=
  let numWordsStr :=
    default ""%string (QueryStringParameters event !! "numWords"%string) in
  if String.eqb numWordsStr ""
  then (mkResponse 400 (Text "Missing numWords parameter"), db)
  else
    match Atoi numWordsStr with
    | Some numWords =>
        if numWords <=? 0
        then (mkResponse 400 (Text "Invalid numWords parameter"), db)
        else
          match getWords numWords db with
          | (Ok words, db') => (mkResponse 200 (Json words), db')
          | (_, db') => (mkResponse 500 (Text "Internal server error"), db')
          end
    | None => (mkResponse 400 (Text "Invalid numWords parameter"), db)
    end.

End First.

(** ** The user provisioning of the auth lambda (src/unnamed/part_001
    and src/lambdas/auth/main.go, first program) *)
Module Auth.

(** The item written to the Users table. *)
Record Item : Type := mkItem {
  userId : string;
  email : string;
  name : string;
  createdAt : string;
  provider : string
}.

Inductive Call : Type :=
  | Query (table index key : string)
  | PutItem (table : string) (item : Item).

(** The Users table as this lambda sees it. *)
Record DB : Type := mkDB {
  Users : list Item;
  calls : list Call;
  fault : nat -> bool
}.

Definition failing (db : DB) : bool := fault db (length (calls db)).

Definition issue (c : Call) (db : DB) : DB :=
  mkDB (Users db) (calls db ++ [c]) (fault db).

(** The first item of the e-mail index, if any. *)
Definition getUserByEmail (email0 : string) (db : DB)
  : outcome (option Item) * DB :=
  let db' := issue (Query usersTableName "email-userId-index" email0) db in
  if failing db then (Err, db')
  else (Ok (head (filter (λ u, email u = email0) (Users db))), db').

(** [PutItem] of an item that is new to the table: on the path that
    reaches it no item has this e-mail, and [uuid.New()] is fresh. *)
Definition db_PutItem (item : Item) (db : DB) : outcome unit * DB :=
  let db' := issue (PutItem usersTableName item) db in
  if failing db then (Err, db')
  else (Ok (), mkDB (Users db' ++ [item]) (calls db') (fault db')).

(** [uuid] is the value of [uuid.New().String()] and [now] the text of
    [time.Now().Format(time.RFC3339)]. *)
Definition storeUserIfNotExists (email0 name0 : string) (uuid now : string)
    (db : DB) : outcome unit * DB :=
  match getUserByEmail email0 db with
  | (Ok (Some _), db') => (Ok (), db')
  | (Ok None, db') => db_PutItem (mkItem uuid email0 name0 now "google") db'
  | (_, db') => (Err, db')
  end.

(** The table as the words lambda reads it. *)
Definition as_users (db : DB) : list User :=
  (λ i, mkUser (userId i) (email i)) <$> Users db.

End Auth.

(** ** Further notions used in the statements *)

(** Every stored record has 0 <= success <= attempts and room for
    [bound] more attempts below the largest int. *)
Definition healthy (bound : Z) (db : DB) : Prop :=
  ∀ k x, Stats db !! k = Some x →
         0 ≤ success x ≤ attempts x ∧ attempts x + bound ≤ max_int.

(** How many outcomes of a list are for word [w], and how many of these
    are correct. *)
Definition submitted (w : string) (rs : list WordResults) : Z :=
  Z.of_nat (length (filter (λ r, wr_word r = w) rs)).

Definition submitted_correct (w : string) (rs : list WordResults) : Z :=
  Z.of_nat (length (filter (λ r, wr_word r = w ∧ isCorrect r = true) rs)).

(** The stored ratio is the one computed from the stored counters. *)
Definition consistent (db : DB) : Prop :=
  ∀ k x, Stats db !! k = Some x →
         ratio_text (success x) (attempts x) = Some (successRatio x).

(** The values a caller holds between its two store calls. *)
Definition pending_ok (bound : Z) (c : Caller) : Prop :=
  match c with
  | Loaded p =>
      0 ≤ p_success p ≤ p_attempts p ∧ p_attempts p + bound ≤ max_int ∧
      p_ratio p = ratio_text (p_success p) (p_attempts p)
  | _ => True
  end.

(** * Properties *)

(** ** Lists *)
Section list_facts.
Context {A : Type}.
Implicit Types l rest : list A.

Lemma elem_of_insert_app l k x rest y :
  y ∈ <[k:=x]> l ++ rest → y ∈ l ++ x :: rest.
Proof.
  revert k. induction l as [ |a l IH]; intros [ |k]; simpl.
  - intros. by apply elem_of_cons; right.
  - intros. by apply elem_of_cons; right.
  - rewrite !elem_of_cons, !elem_of_app, !elem_of_cons. tauto.
  - rewrite !elem_of_cons. intros [->|H]; [by left|].
    right. by eapply IH.
Qed.

Lemma NoDup_insert_app l k x rest :
  NoDup (l ++ x :: rest) → NoDup (<[k:=x]> l ++ rest).
Proof.
  revert k. induction l as [ |a l IH]; intros k; simpl.
  - destruct k; simpl; by inversion 1.
  - intros [Ha Hl]%NoDup_cons. destruct k as [ |k]; simpl.
    + apply NoDup_app in Hl as (H1 & H2 & [H3 H4]%NoDup_cons).
      apply NoDup_cons. split.
      * rewrite elem_of_app. intros [Hx|Hx]; [ |done].
        apply (H2 x Hx). by left.
      * apply NoDup_app. repeat split; [done| |done].
        intros y Hy Hy'. apply (H2 y Hy). by right.
    + apply NoDup_cons. split; [ |by apply IH].
      intros H. apply Ha. by eapply elem_of_insert_app.
Qed.
End list_facts.

(** ** The cache built by init is keyed by the word *)

Lemma load_cache_keyed words : keyed (load_cache words).
Proof.
  unfold load_cache.
  assert (∀ m, keyed m → keyed (foldl (λ m w, <[word w := w]> m) m words)) as H.
  { induction words as [ |w ws IH]; simpl; [done|].
    intros m Hm. apply IH. intros k w'.
    rewrite lookup_insert. case_decide; naive_solver. }
  apply H. intros k w. by rewrite lookup_empty.
Qed.

Lemma range_order_ids (m : gmap string Word) (order : list (string * Word)) :
  keyed m → order ≡ₚ map_to_list m →
  word <$> order.*2 = order.*1 ∧ NoDup order.*1 ∧
  length order = size m ∧
  ∀ w, w ∈ order.*2 ↔ m !! word w = Some w.
Proof.
  intros Hk Hp. repeat split.
  - assert (∀ kw, kw ∈ order → word kw.2 = kw.1) as H.
    { intros [k w] Hin. rewrite Hp in Hin.
      apply elem_of_map_to_list in Hin. by apply Hk. }
    clear Hp. induction order as [ |kw order IH]; simpl; [done|].
    f_equal.
    + apply H. by left.
    + apply IH. intros ? ?. apply H. by right.
  - rewrite Hp. apply NoDup_fst_map_to_list.
  - rewrite Hp. apply length_map_to_list.
  - intros ([k w'] & -> & Hin)%list_elem_of_fmap. simpl.
    rewrite Hp in Hin. apply elem_of_map_to_list in Hin.
    by rewrite (Hk _ _ Hin).
  - intros Hw. apply list_elem_of_fmap. exists (word w, w). split; [done|].
    rewrite Hp. by apply elem_of_map_to_list.
Qed.

(** ** The reservoir loop *)

Lemma Intn_range n r :
  0 < n → ∃ k r', Intn n r = Ok (k, r') ∧ 0 ≤ k < n ∧
                  algo r' = algo r ∧ seed r' = seed r.
Proof.
  intros Hn. unfold Intn.
  destruct (Z.leb_spec n 0) as [ | _]; [lia| ].
  eexists _, _. split; [reflexivity| ]. simpl.
  split; [ |done]. by apply Z.mod_pos_bound.
Qed.

(** The loop never indexes outside the reservoir; it leaves
    [min (visited, limit)] words, each of them a visited one, and no id
    twice when the visited ids are distinct. *)
Lemma reservoir_spec (ws : list (string * Word)) :
  ∀ limit i acc r,
    0 < limit → 0 ≤ i → Z.of_nat (length acc) = Z.min i limit →
    ∃ res r',
      reservoir limit ws i acc r = Ok (res, r') ∧
      Z.of_nat (length res) = Z.min (i + Z.of_nat (length ws)) limit ∧
      (∀ w, w ∈ res → w ∈ acc ++ ws.*2) ∧
      (NoDup ((word <$> acc) ++ (word <$> ws.*2)) → NoDup (word <$> res)) ∧
      algo r' = algo r ∧ seed r' = seed r.
Proof.
  induction ws as [ |[k0 w] ws IH]; intros limit i acc r Hlim Hi Hlen; simpl.
  - exists acc, r. rewrite !app_nil_r. split_and!; auto. lia.
  - destruct (Z.ltb_spec i limit) as [Hlt|Hge].
    + destruct (IH limit (i + 1) (acc ++ [w]) r)
        as (res & r' & -> & Hl & Hin & Hnd & Ha' & Hs');
        [lia|lia| rewrite length_app; simpl; lia | ].
      exists res, r'. split_and!; [done|lia| | |done|done].
      * intros w' Hw'. apply Hin in Hw'. by rewrite <- app_assoc in Hw'.
      * intros H. apply Hnd. by rewrite fmap_app, <- app_assoc.
    + destruct (Intn_range (i + 1) r) as (k & r1 & -> & Hk & Ha & Hs); [lia| ].
      destruct (Z.ltb_spec k limit) as [Hklt|Hkge].
      * rewrite bool_decide_eq_true_2 by lia.
        destruct (IH limit (i + 1) (<[Z.to_nat k := w]> acc) r1)
          as (res & r' & -> & Hl & Hin & Hnd & Ha' & Hs');
          [lia|lia| rewrite length_insert; lia | ].
        exists res, r'. split_and!; [done|lia| | |congruence|congruence].
        -- intros w' Hw'. apply Hin in Hw'. by eapply elem_of_insert_app.
        -- intros H. apply Hnd. rewrite list_fmap_insert.
           by apply NoDup_insert_app.
      * destruct (IH limit (i + 1) acc r1)
          as (res & r' & -> & Hl & Hin & Hnd & Ha' & Hs'); [lia|lia|lia| ].
        exists res, r'. split_and!; [done|lia| | |congruence|congruence].
        -- intros w' Hw'. apply Hin in Hw'.
           rewrite elem_of_app in Hw'. rewrite elem_of_app, elem_of_cons. tauto.
        -- intros H. apply Hnd. rewrite NoDup_app in H. rewrite NoDup_app.
           destruct H as (H1 & H2 & [H3 H4]%NoDup_cons).
           split_and!; [done| |done].
           intros y Hy Hy'. apply (H2 y Hy). by right.
Qed.

(** ** The selector's deduplication *)

Lemma add_unseen_spec (ws : list Word) :
  ∀ acc seen,
    (∀ id, is_Some (seen !! id) ↔ id ∈ word <$> acc) →
    NoDup (word <$> acc) →
    ∃ ext seen',
      add_unseen ws acc seen = (acc ++ ext, seen') ∧
      (∀ id, is_Some (seen' !! id) ↔ id ∈ word <$> (acc ++ ext)) ∧
      NoDup (word <$> (acc ++ ext)) ∧
      (∀ w, w ∈ ext → w ∈ ws) ∧
      (length ext ≤ length ws)%nat ∧
      (∀ w, w ∈ ws → word w ∈ word <$> (acc ++ ext)).
Proof.
  induction ws as [ |w ws IH]; intros acc seen Hseen Hnd; simpl.
  - exists [], seen. rewrite app_nil_r. split_and!; auto.
    all: intros w Hw; by apply elem_of_nil in Hw.
  - destruct (seen !! word w) as [b| ] eqn:Hw.
    + destruct (IH acc seen Hseen Hnd) as (ext & seen' & -> & H1 & H2 & H3 & H4 & H5).
      exists ext, seen'. split_and!; auto.
      * intros w' Hw'. right. by apply H3.
      * intros w' [->|Hw']%elem_of_cons; [ |by apply H5].
        rewrite fmap_app, elem_of_app. left. apply Hseen. by exists b.
    + assert (word w ∉ word <$> acc) as Hfresh.
      { intros Hin. apply Hseen in Hin. rewrite Hw in Hin. by destruct Hin. }
      destruct (IH (acc ++ [w]) (<[word w := true]> seen))
        as (ext & seen' & Heq & H1 & H2 & H3 & H4 & H5).
      { intros id. rewrite fmap_app, elem_of_app, lookup_insert. simpl.
        rewrite list_elem_of_singleton, <- Hseen.
        case_decide; subst; split; eauto. intros [? | ?]; [done|congruence]. }
      { rewrite fmap_app. apply NoDup_app. split_and!; [done| |apply NoDup_singleton].
        simpl. intros x Hx ->%list_elem_of_singleton. done. }
      rewrite <- app_assoc in Heq, H1, H2, H5. simpl in Heq, H1, H2, H5.
      exists (w :: ext), seen'. split_and!; auto.
      * intros w' [->|Hw']%elem_of_cons; [by left|right; by apply H3].
      * simpl. lia.
      * intros w' [->|Hw']%elem_of_cons; [ |by apply H5].
        rewrite fmap_app, elem_of_app. right. by left.
Qed.

Lemma getRandomWords_ok (limit : Z) (order : list (string * Word)) (now : Z)
    (g : Globals) :
  0 < limit →
  ∃ ws r',
    getRandomWords limit order now g = (Ok ws, set_rnd r' g) ∧
    Z.of_nat (length ws) = Z.min (Z.of_nat (length order)) limit ∧
    (∀ w, w ∈ ws → w ∈ order.*2) ∧
    (NoDup (word <$> order.*2) → NoDup (word <$> ws)) ∧
    algo r' = algo (rnd g) ∧ seed r' = now.
Proof.
  intros Hlim. unfold getRandomWords.
  destruct (reservoir_spec order limit 0 [] (Seed now (rnd g)))
    as (ws & r' & -> & Hlen & Hin & Hnd & Ha & Hs); [lia|lia|simpl; lia| ].
  exists ws, r'. split_and!; auto.
Qed.

(** The tail of [getWords]: the slice [allWords[:limit]]. *)
Lemma take_ids_NoDup (n : nat) (ws : list Word) :
  NoDup (word <$> ws) → NoDup (word <$> take n ws).
Proof.
  intros H. rewrite fmap_take.
  eapply sublist_NoDup; [exact H|apply sublist_take].
Qed.

Lemma add_unseen_distinct (ws : list Word) :
  ∀ acc seen,
    (∀ id, is_Some (seen !! id) ↔ id ∈ word <$> acc) →
    NoDup (word <$> acc ++ ws) →
    (add_unseen ws acc seen).1 = acc ++ ws.
Proof.
  induction ws as [ |w ws IH]; intros acc seen Hseen Hnd; simpl.
  - by rewrite app_nil_r.
  - assert (word w ∉ word <$> acc) as Hfresh.
    { rewrite fmap_app in Hnd. apply NoDup_app in Hnd as (_ & H & _).
      intros Hin. apply (H _ Hin). simpl. by left. }
    destruct (seen !! word w) as [b| ] eqn:Hw.
    + destruct Hfresh. apply Hseen. by exists b.
    + rewrite IH.
      * by rewrite <- app_assoc.
      * intros id. rewrite fmap_app, elem_of_app, lookup_insert. simpl.
        rewrite list_elem_of_singleton, <- Hseen.
        case_decide; subst; split; eauto. intros [? | ?]; [done|congruence].
      * by rewrite <- app_assoc.
Qed.

(** Weak words first, then the fill: when the performance query
    delivers fewer than [limit] words, all of distinct ids, the result
    is these words followed by words of the range, no id twice. *)
Lemma getWords_weak_then_fill (userID : string) (limit : Z)
    (order : list (string * Word)) (now : Z) (g : Globals) (db db' : DB)
    (poor : list Word) :
  getPoorPerformanceWords userID limit g db = (Ok poor, db') →
  NoDup (word <$> poor) →
  Z.of_nat (length poor) < limit →
  ∃ rest,
    (getWords userID limit order now g db).1.1 = Ok (poor ++ rest) ∧
    Z.of_nat (length rest) ≤ limit - Z.of_nat (length poor) ∧
    NoDup (word <$> poor ++ rest) ∧
    ∀ x, x ∈ rest → x ∈ order.*2.
Proof.
  intros Hpoor Hnd Hlt. unfold getWords. rewrite Hpoor.
  destruct (Z.ltb_spec limit 0) as [ |_]; [lia| ].
  destruct (add_unseen_spec poor [] ∅) as (ext & seen & Hadd & Hs & Hnd0 & _).
  { intros id. rewrite lookup_empty. simpl. split; [by intros [? ?]| ].
    intros H. by apply elem_of_nil in H. }
  { simpl. constructor. }
  assert (ext = poor) as ->.
  { pose proof (add_unseen_distinct poor [] ∅) as H. rewrite Hadd in H.
    simpl in H. apply H; [ |done].
    intros id. rewrite lookup_empty. simpl. split; [by intros [? ?]| ].
    intros H'. by apply elem_of_nil in H'. }
  rewrite Hadd. simpl app. simpl in Hs, Hnd0.
  destruct (Z.ltb_spec (Z.of_nat (length poor)) limit) as [_| ]; [ |lia].
  destruct (getRandomWords_ok (limit - Z.of_nat (length poor)) order now g)
    as (rw & r' & -> & Hlen & Hsub & _); [lia| ].
  destruct (add_unseen_spec rw poor seen Hs Hnd0)
    as (rest & seen' & -> & _ & Hnd' & Hin & Hle & _).
  assert (Z.of_nat (length rest) ≤ limit - Z.of_nat (length poor)) by lia.
  destruct (Z.ltb_spec limit (Z.of_nat (length (poor ++ rest)))) as [Hover|_].
  { rewrite length_app in Hover. lia. }
  exists rest. split_and!; auto.
Qed.

(** ** Word Selector *)

(** C7. For every user and every count > 0, the sequence returned by
    [getWords] has at most [count] words and holds each word id at most
    once, whatever the performance query and the sampler deliver; the
    call returns such a sequence unless the performance query fails, in
    which case it returns the error. *)
Theorem getWords_bounded_distinct (userID : string) (limit : Z)
    (order : list (string * Word)) (now : Z) (g : Globals) (db : DB) :
  0 < limit →
  if failing db then (getWords userID limit order now g db).1.1 = Err
  else ∃ ws, (getWords userID limit order now g db).1.1 = Ok ws ∧
             Z.of_nat (length ws) ≤ limit ∧ NoDup (word <$> ws).
Proof.
  intros Hlim. unfold getWords, getPoorPerformanceWords, db_Query_stats.
  destruct (failing db); [done| ].
  destruct (Z.ltb_spec limit 0) as [ |_]; [lia| ].
  set (poor := omap _ _).
  destruct (add_unseen_spec poor [] ∅) as (ext & seen & -> & Hs & Hnd & _).
  { intros id. rewrite lookup_empty. simpl. split; [by intros [? ?]| ].
    intros H. by apply elem_of_nil in H. }
  { simpl. constructor. }
  simpl app. simpl in Hs, Hnd.
  destruct (Z.ltb_spec (Z.of_nat (length ext)) limit) as [Hlt|Hge].
  - destruct (getRandomWords_ok (limit - Z.of_nat (length ext)) order now g)
      as (rw & r' & -> & _); [lia| ].
    destruct (add_unseen_spec rw ext seen Hs Hnd) as (ext' & seen' & -> & _ & Hnd' & _).
    destruct (Z.ltb_spec limit (Z.of_nat (length (ext ++ ext')))) as [Hover|Hfit].
    + eexists. split; [reflexivity| ]. split.
      * rewrite length_take. lia.
      * by apply take_ids_NoDup.
    + eexists. split; [reflexivity| ]. split; [lia|done].
  - destruct (Z.ltb_spec limit (Z.of_nat (length ext))) as [Hover|Hfit].
    + eexists. split; [reflexivity| ]. split.
      * rewrite length_take. lia.
      * by apply take_ids_NoDup.
    + eexists. split; [reflexivity| ]. split; [lia|done].
Qed.

(** The scenario, asked for three words. *)
Lemma getWords_bounded_distinct_witness :
  let out := getWords "u1" 3 Scenario.order_ABCDE 7 (Scenario.g0 0) Scenario.db1 in
  0 < 3 ∧
  if failing Scenario.db1 then out.1.1 = Err
  else ∃ ws, out.1.1 = Ok ws ∧ Z.of_nat (length ws) ≤ 3 ∧ NoDup (word <$> ws).
Proof.
  split; [lia| ].
  apply (getWords_bounded_distinct "u1" 3 Scenario.order_ABCDE 7
           (Scenario.g0 0) Scenario.db1).
  lia.
Defined.

(** ** Random Sampler *)

(** C4. For every n >= 1 and a catalog of N words, [getRandomWords n]
    returns exactly min(n, N) words, pairwise distinct by id, each of
    them a word of the catalog, for every state of the random source,
    every clock reading and every order in which the map is ranged
    over. *)
Theorem getRandomWords_sample (words : list Word)
    (order : list (string * Word)) (limit now : Z) (g : Globals) :
  cachedWords g = load_cache words →
  order ≡ₚ map_to_list (cachedWords g) →
  1 ≤ limit →
  ∃ ws g',
    getRandomWords limit order now g = (Ok ws, g') ∧
    length ws = Nat.min (Z.to_nat limit) (size (cachedWords g)) ∧
    NoDup (word <$> ws) ∧
    ∀ w, w ∈ ws → cachedWords g !! word w = Some w.
Proof.
  intros Hc Hp Hlim.
  destruct (range_order_ids (cachedWords g) order) as (Hids & Hnd & Hlen & Hin);
    [rewrite Hc; apply load_cache_keyed|done| ].
  destruct (getRandomWords_ok limit order now g)
    as (ws & r' & -> & Hl & Hsub & Hd & _); [lia| ].
  exists ws, (set_rnd r' g). split_and!; [done|lia| | ].
  - apply Hd. by rewrite Hids.
  - intros w Hw. by apply Hin, Hsub.
Qed.

(** Two words out of the five of the scenario. *)
Lemma getRandomWords_sample_witness :
  let g := Scenario.g0 0 in
  let order := map_to_list (cachedWords g) in
  (cachedWords g
     = load_cache [Scenario.A; Scenario.B; Scenario.C; Scenario.D; Scenario.E] ∧
   order ≡ₚ map_to_list (cachedWords g) ∧ 1 ≤ 2) ∧
  ∃ ws g',
    getRandomWords 2 order 7 g = (Ok ws, g') ∧
    length ws = Nat.min (Z.to_nat 2) (size (cachedWords g)) ∧
    NoDup (word <$> ws) ∧
    ∀ w, w ∈ ws → cachedWords g !! word w = Some w.
Proof.
  split; [split_and!; [reflexivity|reflexivity|lia] | ].
  apply (getRandomWords_sample
           [Scenario.A; Scenario.B; Scenario.C; Scenario.D; Scenario.E]);
    [reflexivity|reflexivity|lia].
Defined.

Lemma scenario_listing :
  map_to_list (cachedWords (Scenario.g0 0)) =
  [("C"%string, Scenario.C); ("E"%string, Scenario.E); ("A"%string, Scenario.A);
   ("B"%string, Scenario.B); ("D"%string, Scenario.D)].
Proof. vm_compute. reflexivity. Qed.

Lemma scenario_order_CABDE :
  Scenario.order_CABDE ≡ₚ map_to_list (cachedWords (Scenario.g0 0)).
Proof.
  rewrite scenario_listing.
  refine (@bool_decide_unpack _ (Permutation_dec _ _) _). vm_compute. exact I.
Qed.

Lemma scenario_order_ABCDE :
  Scenario.order_ABCDE ≡ₚ map_to_list (cachedWords (Scenario.g0 0)).
Proof.
  rewrite scenario_listing.
  refine (@bool_decide_unpack _ (Permutation_dec _ _) _). vm_compute. exact I.
Qed.

(** C2. The selector can come back short of min(count, catalog size):
    with the catalog {A,B,C,D,E}, statistics for C and D and a count of
    3, the performance query delivers C, the sampler is asked for two
    words and draws C and A, the redrawn C is skipped and nothing
    replaces it: two words are returned where three are promised. *)
Theorem getWords_short_of_count :
  let g := set_rnd (Scenario.const_rand 2) (Scenario.g0 0) in
  Scenario.order_CABDE ≡ₚ map_to_list (cachedWords g) ∧
  size (cachedWords g) = 5%nat ∧
  (getWords "u1" 3 Scenario.order_CABDE 7 g Scenario.db1).1.1
    = Ok [Scenario.C; Scenario.A].
Proof.
  split_and!.
  - apply scenario_order_CABDE.
  - vm_compute. reflexivity.
  - vm_compute. reflexivity.
Qed.

(** C3, as stated, fails: the performance query is capped at
    floor(3/2) = 1 item, so D is not fetched as a weak word; with the
    map ranged over as A,B,C,D,E and no replacement drawn, the result
    is [C, A, B]. *)
Lemma select_scenario_without_D :
  Scenario.order_ABCDE ≡ₚ map_to_list (cachedWords (Scenario.g0 2)) ∧
  (getWords "u1" 3 Scenario.order_ABCDE 7 (Scenario.g0 2) Scenario.db1).1.1
    = Ok [Scenario.C; Scenario.A; Scenario.B] ∧
  ¬ ∃ x, [Scenario.C; Scenario.A; Scenario.B] = [Scenario.C; Scenario.D; x].
Proof.
  split_and!.
  - apply scenario_order_ABCDE.
  - vm_compute. reflexivity.
  - intros [x H]. discriminate H.
Qed.

(** C3, amended. In the scenario the performance query is capped at
    floor(3/2) = 1 item and delivers C, the weakest word; the result of
    [getWords user 3] is C followed by at most two further words, drawn
    from {A,B,D,E}, with no id twice, for every state of the random
    source, every clock reading and every order of the range. *)
Theorem select_scenario (order : list (string * Word)) (now : Z) (r : RandSrc) :
  order ≡ₚ map_to_list (cachedWords (Scenario.g0 0)) →
  ∃ rest,
    (getWords "u1" 3 order now (set_rnd r (Scenario.g0 0)) Scenario.db1).1.1
      = Ok (Scenario.C :: rest) ∧
    (length rest ≤ 2)%nat ∧
    NoDup (word <$> Scenario.C :: rest) ∧
    ∀ x, x ∈ rest → x ∈ [Scenario.A; Scenario.B; Scenario.D; Scenario.E].
Proof.
  intros Hp.
  pose proof (getWords_weak_then_fill "u1" 3 order now (set_rnd r (Scenario.g0 0))
              Scenario.db1
              (getPoorPerformanceWords "u1" 3 (set_rnd r (Scenario.g0 0)) Scenario.db1).2
              [Scenario.C]) as H.
  destruct H  as (rest & Hres & Hlen & Hnd & Hin).
  { vm_compute. reflexivity. }
  { apply NoDup_singleton. }
  { simpl. lia. }
  exists rest. split; [exact Hres| ]. clear Hres.
  split; [simpl in Hlen; lia| ]. split; [exact Hnd| ].
  intros x Hx.
  pose proof (Hin x Hx) as Hx'.
  apply list_elem_of_fmap in Hx' as ([k x'] & -> & Hkx).
  rewrite Hp in Hkx.
  rewrite scenario_listing in Hkx.
  assert (word x' ≠ "C"%string) as Hne.
  { intros Heq. apply NoDup_cons in Hnd as [Hnot _].
    apply Hnot. change (word Scenario.C) with "C"%string. rewrite <- Heq.
    apply list_elem_of_fmap. exists x'. split; [reflexivity|exact Hx]. }
  clear -Hkx Hne.
  rewrite !elem_of_cons in Hkx. rewrite !elem_of_cons.
  destruct Hkx as [H|[H|[H|[H|[H|H]]]]];
    try (injection H as -> ->); auto.
  - by destruct Hne.
  - by apply elem_of_nil in H.
Qed.


(** The scenario is an instance: the listing of the map is an order of
    the range. *)
Lemma select_scenario_witness :
  map_to_list (cachedWords (Scenario.g0 0))
    ≡ₚ map_to_list (cachedWords (Scenario.g0 0)) ∧
  ∃ rest,
    (getWords "u1" 3 (map_to_list (cachedWords (Scenario.g0 0))) 7
       (set_rnd (Scenario.const_rand 1) (Scenario.g0 0)) Scenario.db1).1.1
      = Ok (Scenario.C :: rest) ∧
    (length rest ≤ 2)%nat ∧
    NoDup (word <$> Scenario.C :: rest) ∧
    ∀ x, x ∈ rest → x ∈ [Scenario.A; Scenario.B; Scenario.D; Scenario.E].
Proof.
  split; [reflexivity| ].
  apply (select_scenario _ 7 (Scenario.const_rand 1)). reflexivity.
Defined.

(** ** Seeding of the random source *)

(** Drawing never changes the seed. *)
Lemma reservoir_seed (ws : list (string * Word)) :
  ∀ limit i acc r res r',
    reservoir limit ws i acc r = Ok (res, r') →
    algo r' = algo r ∧ seed r' = seed r.
Proof.
  induction ws as [ |[k0 w] ws IH]; intros limit i acc r res r'; simpl.
  - by intros [= <- <-].
  - destruct (i <? limit); [by apply IH| ].
    unfold Intn. destruct (i + 1 <=? 0); [done| ].
    destruct (_ <? limit).
    + case_bool_decide; [ |done].
      intros E. by apply IH in E.
    + intros E. by apply IH in E.
Qed.

(** C9, as stated, fails: a source seeded with 1 at start-up, of which
    five outputs have been consumed, is reseeded with the clock reading
    7 by the next call of [getRandomWords], and the four draws of that
    call are the first four outputs of the new stream. *)
Lemma getRandomWords_reseeds_example :
  let g := set_rnd (mkRand (λ s k, s + Z.of_nat k) 1 5) (Scenario.g0 0) in
  let g' := (getRandomWords 1 Scenario.order_ABCDE 7 g).2 in
  seed (rnd g) = 1 ∧ pos (rnd g) = 5%nat ∧
  seed (rnd g') = 7 ∧ pos (rnd g') = 4%nat.
Proof. vm_compute. split_and!; reflexivity. Qed.

(** C9, amended. Every call of [getRandomWords] reseeds the random
    source with the clock reading of that call before it draws: the
    sample and the state the source is left in are determined by the
    clock reading and do not depend on what was drawn or seeded before,
    and the seed left behind is the clock reading. *)
Theorem getRandomWords_reseeds (limit : Z) (order : list (string * Word))
    (now : Z) (g1 g2 : Globals) :
  algo (rnd g1) = algo (rnd g2) →
  (getRandomWords limit order now g1).1 = (getRandomWords limit order now g2).1 ∧
  rnd (getRandomWords limit order now g1).2 = rnd (getRandomWords limit order now g2).2 ∧
  seed (rnd (getRandomWords limit order now g1).2) = now.
Proof.
  intros Ha. unfold getRandomWords, Seed. rewrite Ha.
  destruct (reservoir limit order 0 [] _) as [[res r']| | ] eqn:E; simpl; auto.
  apply reservoir_seed in E as [_ E]. auto.
Qed.

(** Two sources of the same generator in different states. *)
Lemma getRandomWords_reseeds_witness :
  let g1 := set_rnd (mkRand (λ s k, s + Z.of_nat k) 1 5) (Scenario.g0 0) in
  let g2 := set_rnd (mkRand (λ s k, s + Z.of_nat k) 3 0) (Scenario.g0 0) in
  algo (rnd g1) = algo (rnd g2) ∧
  (getRandomWords 2 Scenario.order_ABCDE 7 g1).1
    = (getRandomWords 2 Scenario.order_ABCDE 7 g2).1 ∧
  rnd (getRandomWords 2 Scenario.order_ABCDE 7 g1).2
    = rnd (getRandomWords 2 Scenario.order_ABCDE 7 g2).2 ∧
  seed (rnd (getRandomWords 2 Scenario.order_ABCDE 7 g1).2) = 7.
Proof.
  split; [reflexivity| ].
  apply (getRandomWords_reseeds 2 Scenario.order_ABCDE 7). reflexivity.
Defined.

(** ** The count parameter of GetWords *)


(** C8, as stated, fails: a request without a [numWords] parameter is
    not rejected; it is served with the default count 10, after two
    store calls. *)
Lemma handleGetWords_missing_count_served :
  let ev := Scenario.with_email ∅ in
  let out := handleGetWords ev Scenario.order_ABCDE 7 (Scenario.g0 0) Scenario.db1 in
  QueryStringParameters ev !! "numWords"%string = None ∧
  out.1.1 = Ok (mkResponse 200
                  (Json [Scenario.C; Scenario.D; Scenario.A; Scenario.B; Scenario.E])) ∧
  calls out.2 =
    calls Scenario.db1 ++
    [Query usersTableName "email-userId-index" "u1@example.org" None;
     Query wordStatsTableName "userId-successRatio-index" "u1" (Some 5)].
Proof. vm_compute. split_and!; reflexivity. Qed.

(** C8, amended. For a request that carries an e-mail address: a
    [numWords] parameter that is present and non-empty but not a number,
    or a number that is not positive, is answered with status 400, with
    the package variables and the store untouched (no store call is
    issued); a missing or empty parameter is replaced by the default and
    the request is served exactly like one asking for 10 words. *)
Theorem handleGetWords_count_check (event : Event)
    (order : list (string * Word)) (now : Z) (g : Globals) (db : DB)
    (email : string) :
  extractEmail event = inl email →
  let numWordsStr :=
    default ""%string (QueryStringParameters event !! "numWords"%string) in
  (numWordsStr ≠ ""%string →
   Atoi numWordsStr = None ∨ (∃ n, Atoi numWordsStr = Some n ∧ n ≤ 0) →
   handleGetWords event order now g db
     = (Ok (mkResponse 400 (Text "Invalid numWords parameter")), g, db)) ∧
  (numWordsStr = ""%string →
   handleGetWords event order now g db
     = handleGetWords (with_numWords "10" event) order now g db).
Proof.
  intros He numWordsStr. split.
  - intros Hne Hbad. unfold handleGetWords. rewrite He.
    fold numWordsStr.
    destruct (String.eqb_spec numWordsStr "") as [ |_]; [done| ].
    destruct Hbad as [-> | (n & -> & Hn)]; [done| ].
    destruct (Z.leb_spec n 0); [done|lia].
  - intros Hempty. unfold handleGetWords, with_numWords, extractEmail in *.
    simpl. rewrite He, lookup_insert_eq. fold numWordsStr. rewrite Hempty.
    reflexivity.
Qed.

(** A request asking for -3 words. *)
Lemma handleGetWords_count_check_witness :
  let ev := Scenario.with_email {["numWords"%string := "-3"%string]} in
  extractEmail ev = inl "u1@example.org"%string ∧
  handleGetWords ev Scenario.order_ABCDE 7 (Scenario.g0 0) Scenario.db1
    = (Ok (mkResponse 400 (Text "Invalid numWords parameter")),
       Scenario.g0 0, Scenario.db1).
Proof.
  split; [reflexivity| ].
  refine (proj1 (handleGetWords_count_check
                   (Scenario.with_email {["numWords"%string := "-3"%string]})
                   Scenario.order_ABCDE 7 (Scenario.g0 0) Scenario.db1
                   "u1@example.org" eq_refl) _ _).
  - vm_compute. discriminate.
  - right. exists (-3). split; [vm_compute; reflexivity|lia].
Defined.

(** ** The ratio is always a number *)

Lemma wrap_int_id (z : Z) : min_int ≤ z ≤ max_int → wrap_int z = z.
Proof.
  unfold wrap_int, min_int, max_int. intros H.
  rewrite Z.mod_small; lia.
Qed.

Lemma pow2_pos (k : Z) : (0 < pow2 k)%Q.
Proof.
  unfold pow2. destruct (Z.leb_spec 0 k) as [Hk|Hk].
  - rewrite <- (Zlt_Qlt 0). by apply Z.pow_pos_nonneg.
  - apply Qinv_lt_0_compat. rewrite <- (Zlt_Qlt 0).
    apply Z.pow_pos_nonneg; lia.
Qed.

Lemma pow2_le_int (k n : Z) :
  0 < n → k ≤ Z.log2 n → (pow2 k <= inject_Z n)%Q.
Proof.
  intros Hn Hk. unfold pow2. destruct (Z.leb_spec 0 k) as [Hk0|Hk0].
  - rewrite <- Zle_Qle. pose proof (Z.log2_spec n Hn) as [Hlog _].
    etrans; [ |exact Hlog]. by apply Z.pow_le_mono_r.
  - assert (0 < 2 ^ (- k)) as Hp by (apply Z.pow_pos_nonneg; lia).
    destruct (2 ^ (- k)) as [ |p|p]; try lia.
    unfold Qle, Qinv, inject_Z. simpl. lia.
Qed.

Lemma round_half_even_ge1 (q : Q) : (1 <= q)%Q → 1 ≤ round_half_even q.
Proof.
  destruct q as [n d]. unfold Qle, round_half_even. simpl. intros H.
  assert (1 ≤ n / Z.pos d) as Hf.
  { apply Z.div_le_lower_bound; lia. }
  repeat case_match; lia.
Qed.

Lemma float32_of_int_pos (n : Z) : 1 ≤ n → (0 < float32_of_int n)%Q.
Proof.
  intros Hn. unfold float32_of_int, round32.
  destruct (Qeq_bool (inject_Z n) 0) eqn:E.
  { apply Qeq_bool_iff in E. unfold Qeq, inject_Z in E. simpl in E. lia. }
  replace (Qnum (inject_Z n) <? 0) with false
    by (symmetry; apply Z.ltb_ge; simpl; lia).
  replace (Qabs (inject_Z n)) with (inject_Z n)
    by (unfold Qabs, inject_Z; by rewrite Z.abs_eq by lia).
  set (ulp := pow2 _).
  assert (ulp <= inject_Z n)%Q as Hulp.
  { apply pow2_le_int; [lia| ].
    assert (ilog2 (inject_Z n) ≤ Z.log2 n).
    { unfold ilog2. simpl. case_match; lia. }
    pose proof (Z.log2_nonneg n). lia. }
  pose proof (pow2_pos (Z.max (ilog2 (inject_Z n)) (-126) - 23)) as Hpos.
  fold ulp in Hpos.
  rewrite Qred_correct. apply Qmult_lt_0_compat; [ |done].
  rewrite <- (Zlt_Qlt 0).
  assert (1 ≤ round_half_even (inject_Z n / ulp)); [ |lia].
  apply round_half_even_ge1. apply Qle_shift_div_l; [done| ].
  by rewrite Qmult_1_l.
Qed.

Lemma ratio_text_defined (succ att : Z) : 1 ≤ att → is_Some (ratio_text succ att).
Proof.
  intros H. unfold ratio_text.
  destruct (Qeq_bool (float32_of_int att) 0) eqn:E; [ |by eexists].
  apply Qeq_bool_iff in E. pose proof (float32_of_int_pos att H) as Hp.
  rewrite E in Hp. by apply Qlt_irrefl in Hp.
Qed.

(** ** How far the stored ratio is from the exact quotient *)

(** Nearest integer: off by at most one half. *)
Lemma round_half_even_near (x : Q) :
  (x - (1 # 2) <= inject_Z (round_half_even x) <= x + (1 # 2))%Q.
Proof.
  destruct x as [n d].
  assert (2 * n - Z.pos d ≤ 2 * Z.pos d * round_half_even (n # d)
          ≤ 2 * n + Z.pos d) as Hk.
  { unfold round_half_even. simpl.
    pose proof (Z.div_mod n (Z.pos d) ltac:(lia)) as Hdm.
    pose proof (Z.mod_pos_bound n (Z.pos d) ltac:(lia)) as Hr.
    repeat case_match; (repeat match goal with
           | H : (_ <? _) = true |- _ => apply Z.ltb_lt in H
           | H : (_ <? _) = false |- _ => apply Z.ltb_ge in H
           end); nia. }
  unfold Qle, Qminus, Qplus, Qopp, inject_Z. simpl.
  rewrite ?Pos2Z.inj_mul. split; nia.
Qed.

Lemma round32_zero (q : Q) : (q == 0)%Q → round32 q = 0%Q.
Proof.
  intros H. unfold round32.
  by rewrite (proj2 (Qeq_bool_iff q 0) H).
Qed.

Lemma round32_near (q : Q) :
  (0 < q)%Q →
  let ulp := pow2 (Z.max (ilog2 q) (-126) - 23) in
  (q - ulp * (1 # 2) <= round32 q <= q + ulp * (1 # 2))%Q.
Proof.
  intros Hq ulp. unfold round32.
  destruct (Qeq_bool q 0) eqn:E.
  { apply Qeq_bool_iff in E. rewrite E in Hq. by apply Qlt_irrefl in Hq. }
  assert (0 < Qnum q) as Hn.
  { destruct q as [n d]. unfold Qlt in Hq. simpl in *. lia. }
  replace (Qnum q <? 0) with false by (symmetry; apply Z.ltb_ge; lia).
  replace (Qabs q) with q
    by (destruct q as [n d]; unfold Qabs; simpl in *; by rewrite Z.abs_eq by lia).
  fold ulp. rewrite Qred_correct.
  pose proof (pow2_pos (Z.max (ilog2 q) (-126) - 23)) as Hu. fold ulp in Hu.
  pose proof (round_half_even_near (q / ulp)) as [H1 H2].
  assert (q / ulp * ulp == q)%Q as Hx.
  { field. intros H0. rewrite H0 in Hu. by apply Qlt_irrefl in Hu. }
  set (m := inject_Z (round_half_even (q / ulp))) in *.
  set (x := (q / ulp)%Q) in *.
  split.
  - apply (Qmult_le_compat_r _ _ ulp) in H1; [ |by apply Qlt_le_weak].
    rewrite <- Hx. lra.
  - apply (Qmult_le_compat_r _ _ ulp) in H2; [ |by apply Qlt_le_weak].
    rewrite <- Hx. lra.
Qed.

Lemma pow2_power (k : Z) : (pow2 k == (2 # 1) ^ k)%Q.
Proof.
  unfold pow2. destruct (Z.leb_spec 0 k) as [Hk|Hk].
  - by rewrite Zpower_Qpower.
  - rewrite Zpower_Qpower by lia.
    rewrite <- Qpower_opp. by rewrite Z.opp_involutive.
Qed.

Lemma pow2_add (a b : Z) : (pow2 (a + b) == pow2 a * pow2 b)%Q.
Proof. rewrite !pow2_power. by apply Qpower_plus. Qed.

Lemma pow2_ge_1 (k : Z) : 0 ≤ k → (1 <= pow2 k)%Q.
Proof.
  intros Hk. unfold pow2. destruct (Z.leb_spec 0 k); [ |lia].
  rewrite <- (Zle_Qle 1). pose proof (Z.pow_pos_nonneg 2 k). lia.
Qed.

Lemma pow2_mono (a b : Z) : a ≤ b → (pow2 a <= pow2 b)%Q.
Proof.
  intros Hab. replace b with (a + (b - a)) by lia. rewrite pow2_add.
  pose proof (pow2_pos a). pose proof (pow2_ge_1 (b - a) ltac:(lia)).
  nra.
Qed.

Lemma ilog2_int (n : Z) : 1 ≤ n → ilog2 (inject_Z n) = Z.log2 n.
Proof.
  intros Hn. unfold ilog2. simpl. rewrite Z.sub_0_r.
  rewrite (proj2 (Qle_bool_iff _ _)); [done| ].
  apply pow2_le_int; lia.
Qed.

(** Conversion of an int to float32: relative error at most 2^-24. *)
Lemma float32_of_int_near (n : Z) :
  0 ≤ n →
  (inject_Z n - inject_Z n * (1 # 16777216) <= float32_of_int n
   <= inject_Z n + inject_Z n * (1 # 16777216))%Q.
Proof.
  intros Hn. unfold float32_of_int.
  destruct (decide (n = 0)) as [->|Hne].
  { rewrite round32_zero by done. change (inject_Z 0) with 0%Q. lra. }
  assert (0 < inject_Z n)%Q as Hpos by (rewrite <- (Zlt_Qlt 0); lia).
  pose proof (round32_near (inject_Z n) Hpos) as Hnear. cbv zeta in Hnear.
  rewrite ilog2_int in Hnear by lia.
  rewrite Z.max_l in Hnear by (pose proof (Z.log2_nonneg n); lia).
  assert (pow2 (Z.log2 n - 23) * (8388608 # 1) <= inject_Z n)%Q as Hulp.
  { change (8388608 # 1) with (pow2 23). rewrite <- pow2_add.
    replace (Z.log2 n - 23 + 23) with (Z.log2 n) by lia.
    apply pow2_le_int; lia. }
  pose proof (pow2_pos (Z.log2 n - 23)).
  lra.
Qed.

Lemma ilog2_below_2 (w : Q) : (0 < w)%Q → (w < 2)%Q → ilog2 w ≤ 0.
Proof.
  intros H0 H2. unfold ilog2.
  set (e := Z.log2 (Qnum w) - Z.log2 (Z.pos (Qden w))).
  assert (e ≤ 1) as He.
  { destruct w as [n d]. unfold Qlt in H0, H2. cbn [Qnum Qden] in *. subst e.
    assert (Z.log2 n ≤ Z.log2 (2 * Z.pos d)) as Hl
      by (apply Z.log2_le_mono; lia).
    rewrite Z.log2_double in Hl by lia. lia. }
  destruct (Qle_bool (pow2 e) w) eqn:Ht; [ |lia].
  apply Qle_bool_iff in Ht.
  destruct (decide (e = 1)) as [He1|?]; [ |lia].
  rewrite He1 in Ht. change (pow2 1) with (2 # 1) in Ht. lra.
Qed.

(** Rounding of a quotient below 2: absolute error at most 2^-24. *)
Lemma round32_near_small (w : Q) :
  (0 <= w)%Q → (w < 2)%Q →
  (w - (1 # 16777216) <= round32 w <= w + (1 # 16777216))%Q.
Proof.
  intros H0 H2. destruct (Qeq_dec w 0) as [Hz|Hnz].
  { rewrite round32_zero by done. lra. }
  assert (0 < w)%Q as Hpos by (apply Qle_lteq in H0 as [?|E]; [done| ];
                               by destruct Hnz).
  pose proof (round32_near w Hpos) as Hnear. cbv zeta in Hnear.
  pose proof (ilog2_below_2 w Hpos H2) as He.
  pose proof (pow2_mono (Z.max (ilog2 w) (-126) - 23) (-23) ltac:(lia)) as Hm.
  change (pow2 (-23)) with (/ inject_Z 8388608) in Hm.
  assert (/ inject_Z 8388608 == 1 # 8388608)%Q as Hc by reflexivity.
  rewrite Hc in Hm.
  pose proof (pow2_pos (Z.max (ilog2 w) (-126) - 23)).
  lra.
Qed.

(** The six decimals of [%f]: absolute error at most 5e-7. *)
Lemma sprintf_f_near (x : Q) :
  (x - (1 # 2000000) <= sprintf_f x <= x + (1 # 2000000))%Q.
Proof.
  unfold sprintf_f. rewrite Qred_correct.
  pose proof (round_half_even_near (x * inject_Z 1000000)) as [H1 H2].
  rewrite (Qmake_Qdiv _ 1000000).
  set (k := inject_Z (round_half_even (x * inject_Z 1000000))) in *.
  change (inject_Z 1000000) with (1000000 # 1) in *.
  change (inject_Z (Z.pos 1000000)) with (1000000 # 1).
  split.
  - apply Qle_shift_div_l; [reflexivity| ]. lra.
  - apply Qle_shift_div_r; [reflexivity| ]. lra.
Qed.

(** The quotient of two converted ints: between 0 and 2 and within
    2/(2^24 - 1) of the exact quotient. *)
Lemma float32_quotient_near (s a : Z) :
  0 ≤ s ≤ a → 1 ≤ a →
  let w := (float32_of_int s / float32_of_int a)%Q in
  let r := (inject_Z s / inject_Z a)%Q in
  (0 <= w)%Q ∧ (w < 2)%Q ∧
  (r - (2 # 16777215) <= w <= r + (2 # 16777215))%Q.
Proof.
  intros Hs Ha w r.
  pose proof (float32_of_int_near s ltac:(lia)) as [Hu1 Hu2].
  pose proof (float32_of_int_near a ltac:(lia)) as [Hv1 Hv2].
  assert (0 <= inject_Z s)%Q as HS by (rewrite <- (Zle_Qle 0); lia).
  assert (inject_Z s <= inject_Z a)%Q as HSA by (rewrite <- Zle_Qle; lia).
  assert (1 <= inject_Z a)%Q as HA by (rewrite <- (Zle_Qle 1); lia).
  subst w r.
  set (u := float32_of_int s) in *. set (v := float32_of_int a) in *.
  set (S := inject_Z s) in *. set (A := inject_Z a) in *.
  assert (0 < v)%Q as Hv by lra.
  assert (0 < A)%Q as HA0 by lra.
  assert (S / A * A == S)%Q as HrA by (field; lra).
  assert (0 <= S / A)%Q as Hr0 by (apply Qle_shift_div_l; lra).
  assert (S / A <= 1)%Q as Hr1 by (apply Qle_shift_div_r; lra).
  set (r := (S / A)%Q) in *.
  split_and!.
  - apply Qle_shift_div_l; lra.
  - apply Qlt_shift_div_r; lra.
  - apply Qle_shift_div_l; [done| ]. nra.
  - apply Qle_shift_div_r; [done| ]. nra.
Qed.

(** The number written as [:successRatio] is within 10^-6 of the exact
    quotient of the counters. *)
Lemma ratio_text_close (s a : Z) (q : Q) :
  0 ≤ s ≤ a → 1 ≤ a →
  ratio_text s a = Some q →
  (Qabs (q - inject_Z s / inject_Z a) <= 1 # 1000000)%Q.
Proof.
  intros Hs Ha. unfold ratio_text.
  destruct (Qeq_bool (float32_of_int a) 0); [done| ]. intros [= <-].
  destruct (float32_quotient_near s a Hs Ha) as (Hw0 & Hw2 & Hwr1 & Hwr2).
  pose proof (round32_near_small _ Hw0 Hw2) as [Hq1 Hq2].
  pose proof (sprintf_f_near
                (round32 (float32_of_int s / float32_of_int a))) as [Hp1 Hp2].
  apply Qabs_Qle_condition. split; lra.
Qed.


(** ** Statistics Updater *)



Lemma failing_issue (c : Call) (db : DB) :
  failing (issue c db) = fault db (S (length (calls db))).
Proof.
  unfold failing, issue. simpl. by rewrite length_app, Nat.add_1_r.
Qed.

Lemma bump_counters (userId0 : string) (result : WordResults)
    (item : option WordStatistics) (a s : Z) :
  match item with Some x => (attempts x, success x) | None => (0, 0) end = (a, s) →
  0 ≤ s ≤ a → a < max_int →
  ∃ q, bump userId0 result item
       = Ok (mkPending (userId0, wr_word result) (a + 1)
                       (s + outcome_value (isCorrect result)) (Some q)) ∧
       ratio_text (s + outcome_value (isCorrect result)) (a + 1) = Some q.
Proof.
  intros Hc Hs Ha.
  destruct (ratio_text_defined (s + outcome_value (isCorrect result)) (a + 1))
    as [q Hq]; [lia| ].
  exists q. split; [ |done]. unfold bump.
  assert (in_int a && in_int s = true) as Hin.
  { unfold in_int, min_int, max_int in *. 
    apply andb_true_iff; split; apply andb_true_iff; split; apply Z.leb_le; lia. }
  assert (wrap_int (a + 1) = a + 1) as Hwa
    by (apply wrap_int_id; unfold min_int, max_int in *; lia).
  assert (wrap_int (s + 1) = s + 1) as Hws
    by (apply wrap_int_id; unfold min_int, max_int in *; lia).
  destruct item as [x| ]; injection Hc as -> ->; rewrite ?Hin;
    rewrite Hwa; destruct (isCorrect result); simpl outcome_value in *;
    rewrite ?Hws, ?Z.add_0_r in *; by rewrite Hq.
Qed.

(** A call that does not return [Ok] leaves the statistics table as it
    was, and a call writes under no key but its own. *)
Lemma updateWordStatistics_frame (userId0 : string) (result : WordResults)
    (db : DB) :
  let out := updateWordStatistics userId0 result db in
  (out.1 ≠ Ok () → Stats out.2 = Stats db) ∧
  (∀ k, k ≠ (userId0, wr_word result) → Stats out.2 !! k = Stats db !! k) ∧
  ∃ cs, calls out.2 = calls db ++ cs ∧ (length cs ≤ 2)%nat.
Proof.
  unfold updateWordStatistics, uws_read, uws_write, db_GetItem, db_UpdateItem.
  destruct (failing db).
  { simpl. split_and!; auto. exists [GetItem wordStatsTableName (userId0, wr_word result)].
    split; [done|simpl; lia]. }
  destruct (bump userId0 result (Stats db !! (userId0, wr_word result))) as [p| | ] eqn:Hb.
  2,3: simpl; split_and!; auto; eexists [_]; split; [done|simpl; lia].
  assert (p_key p = (userId0, wr_word result)) as Hk.
  { unfold bump in Hb. repeat case_match; simplify_eq; done. }
  destruct (failing (issue _ db)).
  { simpl. split_and!; auto. eexists [_; _]. rewrite <- app_assoc.
    split; [done|simpl; lia]. }
  destruct (p_ratio p); simpl.
  - split_and!; [done| | ].
    + intros k Hne. rewrite lookup_insert_ne; [done|congruence].
    + eexists [_; _]. rewrite <- app_assoc. split; [done|simpl; lia].
  - split_and!; auto. eexists [_; _]. rewrite <- app_assoc.
    split; [done|simpl; lia].
Qed.

(** The function, with its two store calls laid out. *)
Lemma updateWordStatistics_unfold (userId0 : string) (result : WordResults)
    (db : DB) :
  updateWordStatistics userId0 result db =
  let db' := issue (GetItem wordStatsTableName (userId0, wr_word result)) db in
  if fault db (length (calls db)) then (Err, db')
  else
    match bump userId0 result (Stats db !! (userId0, wr_word result)) with
    | Ok p =>
        let db'' := issue (UpdateItem wordStatsTableName (p_key p) (p_attempts p)
                             (p_success p) (p_ratio p)) db' in
        if fault db (S (length (calls db))) then (Err, db'')
        else
          match p_ratio p with
          | Some q =>
              (Ok (),
               mkDB (Words db) (Users db)
                    (<[p_key p := mkWordStatistics (p_key p).1 (p_key p).2
                                    (p_attempts p) (p_success p) q]> (Stats db))
                    (calls db'') (fault db))
          | None => (Err, db'')
          end
    | _ => (Err, db')
    end.
Proof.
  unfold updateWordStatistics, uws_read, uws_write, db_GetItem, db_UpdateItem.
  unfold failing at 1. destruct (fault db (length (calls db))); [done| ].
  destruct (bump _ _ _); [ |done|done].
  by rewrite failing_issue.
Qed.

(** C5, as stated, fails at the two ends of the arithmetic: a record
    with the largest int as attempts (and 0 <= success <= attempts) is
    updated without error to attempts = -2^63, below its success; and
    for a record that goes from (2, 0) to (3, 1) the number stored as
    successRatio is 0.333333, which is not 1/3. *)
Lemma updateWordStatistics_at_the_limits :
  let full := mkDB [] []
                {[("u1"%string, "A"%string)
                    := mkWordStatistics "u1" "A" max_int 0 0]} []
                (λ _, false) in
  let out := updateWordStatistics "u1" (mkWordResults "A" false) full in
  let two := mkDB [] []
               {[("u1"%string, "A"%string)
                   := mkWordStatistics "u1" "A" 2 0 0]} []
               (λ _, false) in
  let out' := updateWordStatistics "u1" (mkWordResults "A" true) two in
  (out.1 = Ok () ∧
   ∃ new, Stats out.2 !! ("u1"%string, "A"%string) = Some new ∧
          attempts new = min_int ∧ success new = 0 ∧
          ¬ (0 ≤ success new ≤ attempts new) ∧
          attempts new ≠ max_int + 1) ∧
  (out'.1 = Ok () ∧
   ∃ new, Stats out'.2 !! ("u1"%string, "A"%string) = Some new ∧
          attempts new = 3 ∧ success new = 1 ∧
          successRatio new = (333333 # 1000000)%Q ∧
          ¬ (successRatio new == 1 # 3)%Q).
Proof.
  split.
  - split; [vm_compute; reflexivity| ].
    eexists. split; [vm_compute; reflexivity| ].
    split_and!; [reflexivity|reflexivity| |vm_compute; discriminate].
    vm_compute. intros [_ H]. by apply H.
  - split; [vm_compute; reflexivity| ].
    eexists. split; [vm_compute; reflexivity| ].
    split_and!; [reflexivity|reflexivity|reflexivity| ].
    vm_compute. discriminate.
Qed.

(** C5, amended. One application of [updateWordStatistics] to the
    record of a pair (counters [a] attempts, [s] successes, both zero
    when the record is absent) that satisfies 0 <= s <= a, with [a]
    below the largest int: the call returns without error when neither
    of its two store calls fails; when it returns without error the
    stored record has attempts a + 1 and successes s + 1 for a correct
    outcome and s otherwise, satisfies 0 <= successes <= attempts again,
    and its successRatio is the float32 quotient of these post-update
    counters as printed by [%f], a number within 10^-6 of
    successes/attempts; when it returns an error the table is
    unchanged; and no record of the table is ever removed. *)
Theorem updateWordStatistics_counters (userId0 : string) (result : WordResults)
    (db : DB) (a s : Z) :
  let key := (userId0, wr_word result) in
  let out := updateWordStatistics userId0 result db in
  counters db key = (a, s) →
  0 ≤ s ≤ a → a < max_int →
  (fault db (length (calls db)) = false →
   fault db (S (length (calls db))) = false → out.1 = Ok ()) ∧
  (out.1 = Ok () →
   ∃ new, Stats out.2 !! key = Some new ∧
          attempts new = a + 1 ∧
          success new = s + outcome_value (isCorrect result) ∧
          0 ≤ success new ≤ attempts new ∧
          ratio_text (success new) (attempts new) = Some (successRatio new) ∧
          (Qabs (successRatio new
                 - inject_Z (success new) / inject_Z (attempts new))
           <= 1 # 1000000)%Q) ∧
  (out.1 ≠ Ok () → Stats out.2 = Stats db) ∧
  (∀ k, is_Some (Stats db !! k) → is_Some (Stats out.2 !! k)).
Proof.
  intros key out Hc Hs Ha. unfold counters in Hc. subst key out.
  set (key := (userId0, wr_word result)) in *.
  destruct (updateWordStatistics_frame userId0 result db) as (Hfail & Hother & _).
  destruct (bump_counters userId0 result (Stats db !! key) a s Hc Hs Ha)
    as (q & Hb & Hq).
  set (out := updateWordStatistics userId0 result db) in *.
  assert (out.1 = Ok () →
          Stats out.2 !! key
          = Some (mkWordStatistics userId0 (wr_word result) (a + 1)
                    (s + outcome_value (isCorrect result)) q)) as Hnew.
  { subst out. rewrite updateWordStatistics_unfold. cbv zeta.
    destruct (fault db (length (calls db))); [done| ]. fold key. rewrite Hb.
    destruct (fault db (S (length (calls db)))); [done| ]. simpl. intros _.
    by rewrite lookup_insert_eq. }
  split_and!.
  - intros F1 F2. subst out. rewrite updateWordStatistics_unfold. cbv zeta.
    rewrite F1. fold key. by rewrite Hb, F2.
  - intros Hok. eexists. split; [by apply Hnew| ].
    cbn [attempts success successRatio].
    assert (0 ≤ s + outcome_value (isCorrect result) ≤ a + 1) as Hs'
      by (destruct (isCorrect result); simpl; lia).
    split_and!; [done|done|lia|lia|done| ].
    apply ratio_text_close; [done|lia|done].
  - done.
  - intros k Hk. destruct (decide (k = key)) as [->|Hne].
    + destruct (out.1) as [[]| | ] eqn:Ho.
      * rewrite Hnew by done. by eexists.
      * rewrite Hfail by done. done.
      * rewrite Hfail by done. done.
    + by rewrite Hother.
Qed.

(** The record of C in the scenario: five attempts, one success; a
    correct answer makes it six and two, with 0.333333 as the ratio. *)
Lemma updateWordStatistics_counters_witness :
  let db := Scenario.db1 in
  let key := ("u1"%string, "C"%string) in
  let out := updateWordStatistics "u1" (mkWordResults "C" true) db in
  (counters db key = (5, 1) ∧ 0 ≤ 1 ≤ 5 ∧ 5 < max_int) ∧
  (fault db (length (calls db)) = false →
   fault db (S (length (calls db))) = false → out.1 = Ok ()) ∧
  (out.1 = Ok () →
   ∃ new, Stats out.2 !! key = Some new ∧
          attempts new = 5 + 1 ∧
          success new = 1 + outcome_value true ∧
          0 ≤ success new ≤ attempts new ∧
          ratio_text (success new) (attempts new) = Some (successRatio new) ∧
          (Qabs (successRatio new
                 - inject_Z (success new) / inject_Z (attempts new))
           <= 1 # 1000000)%Q) ∧
  (out.1 ≠ Ok () → Stats out.2 = Stats db) ∧
  (∀ k, is_Some (Stats db !! k) → is_Some (Stats out.2 !! k)).
Proof.
  split; [split_and!; [reflexivity|lia|lia|reflexivity] | ].
  apply (updateWordStatistics_counters "u1" (mkWordResults "C" true)
           Scenario.db1 5 1).
  - reflexivity.
  - lia.
  - reflexivity.
Defined.

Lemma ratio_text_one : ratio_text 1 1 = Some 1%Q.
Proof. vm_compute. reflexivity. Qed.

Lemma ratio_text_zero : ratio_text 0 1 = Some 0%Q.
Proof. vm_compute. reflexivity. Qed.

(** C6. For a pair without a statistics record, when neither store
    call fails, [updateWordStatistics] returns without error and leaves
    under the pair's key a record with attempts 1 and successes 1 for a
    correct outcome and 0 otherwise, its successRatio being 1 or 0
    accordingly. *)
Theorem updateWordStatistics_creates (userId0 : string) (result : WordResults)
    (db : DB) :
  Stats db !! (userId0, wr_word result) = None →
  fault db (length (calls db)) = false →
  fault db (S (length (calls db))) = false →
  ∃ db',
    updateWordStatistics userId0 result db = (Ok (), db') ∧
    Stats db' !! (userId0, wr_word result)
    = Some (mkWordStatistics userId0 (wr_word result) 1
              (if isCorrect result then 1 else 0)
              (if isCorrect result then 1 else 0)%Q).
Proof.
  intros Habs F1 F2.
  rewrite updateWordStatistics_unfold. cbv zeta. rewrite F1, F2, Habs.
  unfold bump. change (wrap_int (0 + 1)) with 1.
  destruct (isCorrect result).
  - change (ratio_text (wrap_int (0 + 1)) 1) with (ratio_text 1 1).
    rewrite ratio_text_one. eexists. split; [reflexivity| ].
    simpl. by rewrite lookup_insert_eq.
  - rewrite ratio_text_zero. eexists. split; [reflexivity| ].
    simpl. by rewrite lookup_insert_eq.
Qed.

(** The scenario has no record for A. *)
Lemma updateWordStatistics_creates_witness :
  let db := Scenario.db1 in
  (Stats db !! ("u1"%string, "A"%string) = None ∧
   fault db (length (calls db)) = false ∧
   fault db (S (length (calls db))) = false) ∧
  ∃ db',
    updateWordStatistics "u1" Scenario.right_A db = (Ok (), db') ∧
    Stats db' !! ("u1"%string, "A"%string)
    = Some (mkWordStatistics "u1" "A" 1 1 1%Q).
Proof.
  split; [split_and!; reflexivity| ].
  apply (updateWordStatistics_creates "u1" Scenario.right_A Scenario.db1);
    reflexivity.
Defined.

(** ** SubmitResults *)





(** ** Concurrent submissions *)

(** A caller that runs alone does what the function does. *)
Lemma run_alone (userId0 : string) (result : WordResults) (db : DB) :
  run [0; 0]%nat [Ready userId0 result] db
  = ([Returned (updateWordStatistics userId0 result db).1],
     (updateWordStatistics userId0 result db).2).
Proof.
  unfold updateWordStatistics. simpl.
  destruct (uws_read userId0 result db) as [[p| | ] db']; simpl; try done.
  by destruct (uws_write p db').
Qed.

Lemma uws_read_absent (userId0 : string) (result : WordResults) (db : DB) :
  Stats db !! (userId0, wr_word result) = None →
  fault db (length (calls db)) = false →
  uws_read userId0 result db
  = (Ok (mkPending (userId0, wr_word result) 1
           (outcome_value (isCorrect result))
           (Some (inject_Z (outcome_value (isCorrect result))))),
     issue (GetItem wordStatsTableName (userId0, wr_word result)) db).
Proof.
  intros Habs F. unfold uws_read, db_GetItem, failing. rewrite F, Habs.
  unfold bump. change (wrap_int (0 + 1)) with 1.
  destruct (isCorrect result).
  - change (ratio_text (wrap_int (0 + 1)) 1) with (ratio_text 1 1).
    by rewrite ratio_text_one.
  - by rewrite ratio_text_zero.
Qed.

Lemma uws_write_ok (key : string * string) (a s : Z) (q : Q) (db : DB) :
  fault db (length (calls db)) = false →
  uws_write (mkPending key a s (Some q)) db
  = (Ok (),
     mkDB (Words db) (Users db)
          (<[key := mkWordStatistics key.1 key.2 a s q]> (Stats db))
          (calls db ++ [UpdateItem wordStatsTableName key a s (Some q)])
          (fault db)).
Proof.
  intros F. unfold uws_write, db_UpdateItem, failing. by rewrite F.
Qed.

(** C1. The update is a client-side read followed by a write, and
    concurrent callers lose increments: two callers submitting the same
    outcome for a pair without a record, scheduled read, read, write,
    write, both return without error and leave attempts = 1 (and
    successes = 1 for a correct outcome), where two outcomes call for
    attempts = 2. *)
Theorem concurrent_updates_lose_an_increment (userId0 : string)
    (result : WordResults) (db : DB) :
  let key := (userId0, wr_word result) in
  let out := run [0; 1; 0; 1]%nat
                 [Ready userId0 result; Ready userId0 result] db in
  Stats db !! key = None →
  (∀ k, fault db k = false) →
  out.1 = [Returned (Ok ()); Returned (Ok ())] ∧
  ∃ s, Stats out.2 !! key = Some s ∧
       attempts s = 1 ∧ success s = outcome_value (isCorrect result).
Proof.
  intros key out Habs F. subst out key. simpl.
  rewrite (uws_read_absent userId0 result db Habs (F _)). simpl.
  rewrite uws_read_absent by (simpl; auto).
  rewrite uws_write_ok by apply F. simpl.
  rewrite uws_write_ok by apply F. simpl.
  split; [done| ]. eexists. rewrite lookup_insert_eq. split; [done| ]. done.
Qed.

(** Two correct answers for A in the scenario. *)
Lemma concurrent_updates_lose_an_increment_witness :
  let out := run [0; 1; 0; 1]%nat
                 [Ready "u1" Scenario.right_A; Ready "u1" Scenario.right_A]
                 Scenario.db1 in
  (Stats Scenario.db1 !! ("u1"%string, "A"%string) = None ∧
   ∀ k, fault Scenario.db1 k = false) ∧
  out.1 = [Returned (Ok ()); Returned (Ok ())] ∧
  ∃ s, Stats out.2 !! ("u1"%string, "A"%string) = Some s ∧
       attempts s = 1 ∧ success s = 1.
Proof.
  split; [split; [reflexivity|intros k; reflexivity] | ].
  apply (concurrent_updates_lose_an_increment "u1" Scenario.right_A Scenario.db1).
  - reflexivity.
  - intros k. reflexivity.
Defined.

Lemma uws_read_present (userId0 : string) (result : WordResults) (db : DB)
    (a s : Z) :
  counters db (userId0, wr_word result) = (a, s) →
  0 ≤ s ≤ a → a < max_int →
  fault db (length (calls db)) = false →
  ∃ q, uws_read userId0 result db
       = (Ok (mkPending (userId0, wr_word result) (a + 1)
                (s + outcome_value (isCorrect result)) (Some q)),
          issue (GetItem wordStatsTableName (userId0, wr_word result)) db).
Proof.
  intros Hc Hs Ha F. unfold counters in Hc.
  destruct (bump_counters userId0 result _ a s Hc Hs Ha) as (q & Hb & _).
  exists q. unfold uws_read, db_GetItem, failing. by rewrite F, Hb.
Qed.

(** The same two submissions one after the other are both counted. *)
Lemma sequential_updates_counted (userId0 : string) (result : WordResults)
    (db : DB) :
  let key := (userId0, wr_word result) in
  let out := run [0; 0; 1; 1]%nat
                 [Ready userId0 result; Ready userId0 result] db in
  Stats db !! key = None →
  (∀ k, fault db k = false) →
  out.1 = [Returned (Ok ()); Returned (Ok ())] ∧
  ∃ s, Stats out.2 !! key = Some s ∧
       attempts s = 2 ∧ success s = 2 * outcome_value (isCorrect result).
Proof.
  intros key out Habs F. subst out key. simpl.
  rewrite (uws_read_absent userId0 result db Habs (F _)). simpl.
  rewrite uws_write_ok by apply F. simpl.
  set (db1 := mkDB _ _ _ _ _).
  destruct (uws_read_present userId0 result db1 1 (outcome_value (isCorrect result)))
    as (q & ->).
  { unfold counters. subst db1. simpl. by rewrite lookup_insert_eq. }
  { destruct (isCorrect result); simpl; lia. }
  { unfold max_int. lia. }
  { apply F. }
  simpl. rewrite uws_write_ok by apply F. simpl.
  split; [done| ]. eexists. rewrite lookup_insert_eq. split; [done| ].
  simpl. split; [done|lia].
Qed.

(** * Further properties *)


(** ** The catalog cache *)

Lemma load_cache_from (words : list Word) :
  ∀ (m : gmap string Word) k,
    let m' := foldl (λ m w, <[word w := w]> m) m words in
    (is_Some (m' !! k) ↔ k ∈ word <$> words ∨ is_Some (m !! k)) ∧
    (∀ w, m' !! k = Some w → w ∈ words ∧ word w = k ∨ m !! k = Some w).
Proof.
  induction words as [ |w0 ws IH]; intros m k; simpl.
  - split; [ |auto]. split; [auto| ]. intros [H|H]; [ |done].
    by apply elem_of_nil in H.
  - destruct (IH (<[word w0 := w0]> m) k) as [H1 H2]. split.
    + rewrite H1, elem_of_cons, lookup_insert.
      case_decide as Hd.
      * subst k. split; intros _; [by left; left|right; by eexists].
      * split; [intros [?|?]; [left; by right|by right]| ].
        intros [[?|?]|?]; [congruence|by left|by right].
    + intros w Hw. apply H2 in Hw as [[Hin Hid]|Hw].
      * left. split; [by right|done].
      * rewrite lookup_insert in Hw. case_decide; [ |by right].
        injection Hw as <-. left. split; [by left|done].
Qed.

(** X1. What [init] leaves in the package variables: [initErr] stays
    nil exactly when the scan answered and returned at least one word;
    after a scan that answered, every scanned word is found in the cache
    under its own [word] (holding a scanned word of that id), and every
    cache entry is a scanned word stored under its own [word]; after a
    failed scan the cache is empty; the user cache starts empty. *)
Theorem init_cache_contents (r : RandSrc) (db : DB) :
  let g := (init r db).1 in
  (initErr g = false ↔ failing db = false ∧ Words db ≠ []) ∧
  (failing db = false →
   (∀ w, w ∈ Words db →
         ∃ w', cachedWords g !! word w = Some w' ∧ w' ∈ Words db ∧
               word w' = word w) ∧
   (∀ k w, cachedWords g !! k = Some w → w ∈ Words db ∧ word w = k)) ∧
  (failing db = true → cachedWords g = ∅) ∧
  userCache g = ∅ ∧ rnd g = r.
Proof.
  unfold init, fetchWordsFromDynamoDB, db_Scan_words.
  destruct (failing db) eqn:F; simpl.
  - split_and!; try done. split; [done|by intros [? _]].
  - split_and!; try done.
    + rewrite bool_decide_eq_false.
      destruct (Words db); simpl; split; try done; try lia.
      * by intros [_ ?].
    + intros _. split.
      * intros w Hw.
        destruct (load_cache_from (Words db) ∅ (word w)) as [H1 H2].
        destruct (proj2 H1) as [w' Hw'].
        { left. apply list_elem_of_fmap. by exists w. }
        exists w'. unfold load_cache. split; [done| ].
        apply H2 in Hw' as [?|Hw']; [done| ]. by rewrite lookup_empty in Hw'.
      * intros k w Hk.
        destruct (load_cache_from (Words db) ∅ k) as [_ H2].
        apply H2 in Hk as [?|Hk]; [done| ]. by rewrite lookup_empty in Hk.
Qed.

(** ** HandleRequest *)

Lemma getUserIdByEmail_globals (email : string) (g : Globals) (db : DB) :
  let out := getUserIdByEmail email g db in
  cachedWords out.1.2 = cachedWords g ∧ initErr out.1.2 = initErr g ∧
  rnd out.1.2 = rnd g ∧
  Words out.2 = Words db ∧ Users out.2 = Users db ∧ Stats out.2 = Stats db ∧
  fault out.2 = fault db.
Proof.
  unfold getUserIdByEmail, db_Query_users.
  destruct (userCache g !! email); [done| ].
  destruct (failing db); [done| ].
  by destruct (filter _ _).
Qed.

Lemma getRandomWords_globals (limit : Z) (order : list (string * Word))
    (now : Z) (g : Globals) :
  let out := getRandomWords limit order now g in
  cachedWords out.2 = cachedWords g ∧ initErr out.2 = initErr g ∧
  userCache out.2 = userCache g.
Proof.
  unfold getRandomWords. by destruct (reservoir _ _ _ _ _) as [[? ?]| | ].
Qed.

(** [getWords] only reads the store and only moves the random source. *)
Lemma getWords_frame (userID : string) (limit : Z)
    (order : list (string * Word)) (now : Z) (g : Globals) (db : DB) :
  let out := getWords userID limit order now g db in
  (cachedWords out.1.2 = cachedWords g ∧ initErr out.1.2 = initErr g ∧
   userCache out.1.2 = userCache g) ∧
  (Words out.2 = Words db ∧ Users out.2 = Users db ∧ Stats out.2 = Stats db ∧
   fault out.2 = fault db).
Proof.
  unfold getWords, getPoorPerformanceWords, db_Query_stats.
  destruct (failing db); [done| ].
  destruct (limit <? 0); [done| ].
  destruct (add_unseen _ _ _) as [allWords seen].
  destruct (_ <? limit).
  - pose proof (getRandomWords_globals (limit - Z.of_nat (length allWords))
                  order now g) as Hg.
    destruct (getRandomWords _ order now g) as [[rw| | ] g']; simpl in Hg; try done.
    destruct (add_unseen rw allWords seen) as [all' seen'].
    by destruct (limit <? _).
  - by destruct (limit <? _).
Qed.

Lemma update_each_frame (userId0 : string) (rs : list WordResults) (db : DB) :
  let out := update_each userId0 rs db in
  Words out.2 = Words db ∧ Users out.2 = Users db ∧ fault out.2 = fault db.
Proof.
  revert db. induction rs as [ |r rs IH]; intros db; simpl; [done| ].
  rewrite updateWordStatistics_unfold. cbv zeta.
  destruct (fault db _); [done| ].
  destruct (bump _ _ _) as [p| | ]; [ |done|done].
  destruct (fault db _); [done| ].
  destruct (p_ratio p); [ |done].
  destruct (IH (mkDB (Words db) (Users db)
                  (<[p_key p := mkWordStatistics (p_key p).1 (p_key p).2
                                  (p_attempts p) (p_success p) q]> (Stats db))
                  (calls (issue (UpdateItem wordStatsTableName (p_key p)
                                   (p_attempts p) (p_success p) (Some q))
                            (issue (GetItem wordStatsTableName
                                      (userId0, wr_word r)) db)))
                  (fault db))) as (H1 & H2 & H3).
  done.
Qed.

(** X2. A request that is served never changes the catalog: whatever
    the method and the event, [cachedWords] and [initErr] are as before,
    the Words and Users tables are untouched, and only a POST can change
    the statistics table. *)
Theorem HandleRequest_catalog_read_only (req : Request)
    (order : list (string * Word)) (now : Z) (g g' : Globals) (db db' : DB)
    (o : outcome Response) :
  HandleRequest req order now g db = Some (o, g', db') →
  cachedWords g' = cachedWords g ∧ initErr g' = false ∧
  Words db' = Words db ∧ Users db' = Users db ∧
  (HTTPMethod req ≠ "POST"%string → Stats db' = Stats db).
Proof.
  unfold HandleRequest. destruct (initErr g) eqn:Hi; [done| ].
  assert (∀ (g1 : Globals) (db1 : DB),
            cachedWords g1 = cachedWords g → initErr g1 = initErr g →
            Words db1 = Words db → Users db1 = Users db →
            (HTTPMethod req ≠ "POST"%string → Stats db1 = Stats db) →
            cachedWords g1 = cachedWords g ∧ initErr g1 = false ∧
            Words db1 = Words db ∧ Users db1 = Users db ∧
            (HTTPMethod req ≠ "POST"%string → Stats db1 = Stats db)) as Hfin.
  { intros. split_and!; try congruence; done. }
  destruct (String.eqb_spec (HTTPMethod req) "GET") as [Hget|_].
  - intros [= Hh]. revert Hh. unfold handleGetWords.
    destruct (extractEmail _); [ |intros [= <- <- <-]; by apply Hfin].
    destruct (Atoi _) as [n| ]; [ |intros [= <- <- <-]; by apply Hfin].
    destruct (n <=? 0); [intros [= <- <- <-]; by apply Hfin| ].
    pose proof (getUserIdByEmail_globals s g db) as Hu.
    destruct (getUserIdByEmail s g db) as [[[uid| | ] g1] db1]; simpl in Hu;
      destruct Hu as (Hu1 & Hu2 & _ & Hu3 & Hu4 & Hu5 & _);
      try (intros [= <- <- <-]; by apply Hfin).
    pose proof (getWords_frame uid n order now g1 db1) as Hw.
    destruct (getWords uid n order now g1 db1) as [[[ws| | ] g2] db2];
      simpl in Hw; destruct Hw as ((Hw1 & Hw2 & _) & Hw3 & Hw4 & Hw5 & _);
      intros [= <- <- <-]; apply Hfin; try congruence; intros ?; congruence.
  - destruct (String.eqb_spec (HTTPMethod req) "POST") as [Hpost|Hne].
    + unfold handleResults.
      destruct (extractEmail _); [ |intros [= <- <- <-]; by apply Hfin].
      pose proof (getUserIdByEmail_globals s g db) as Hu.
      destruct (getUserIdByEmail s g db) as [[[uid| | ] g1] db1]; simpl in Hu;
        destruct Hu as (Hu1 & Hu2 & _ & Hu3 & Hu4 & Hu5 & _);
        try (intros [= <- <- <-]; by apply Hfin).
      destruct (json_body _) as [rs| ];
        [ |intros [= <- <- <-]; by apply Hfin].
      pose proof (update_each_frame uid rs db1) as He.
      destruct (update_each uid rs db1) as [[[]| | ] db2]; simpl in He;
        destruct He as (He1 & He2 & _);
        intros [= <- <- <-]; apply Hfin; try congruence; intros ?; congruence.
    + intros [= <- <- <-]. by apply Hfin.
Qed.

(** X3. The lambda fails closed: right after [init], [HandleRequest]
    ends the process for every request exactly when the scan of the
    Words table failed or returned no word. *)
Theorem HandleRequest_fail_closed (r : RandSrc) (db0 : DB) (req : Request)
    (order : list (string * Word)) (now : Z) :
  HandleRequest req order now (init r db0).1 (init r db0).2 = None
  ↔ failing db0 = true ∨ Words db0 = [].
Proof.
  unfold HandleRequest, init, fetchWordsFromDynamoDB, db_Scan_words.
  destruct (failing db0); simpl.
  - split; [by left|done].
  - destruct (Words db0) as [ |w ws]; simpl.
    + split; [by right|done].
    + try rewrite bool_decide_eq_false_2 by done.
      split; [ |by intros [?|?]].
      destruct (String.eqb _ _); [done| ].
      destruct (String.eqb _ _); [ |done].
      by destruct (handleResults _ _ _) as [[? ?] ?].
Qed.

(** X4. An event without an e-mail address never reaches the store:
    whatever the method, the answer is 401 (or 405 for a method that is
    neither GET nor POST) and the package variables and the store are
    left exactly as they were. *)
Theorem HandleRequest_without_email (req : Request)
    (order : list (string * Word)) (now : Z) (g : Globals) (db : DB)
    (msg : string) :
  initErr g = false →
  extractEmail (req_event req) = inr msg →
  ∃ resp, HandleRequest req order now g db = Some (Ok resp, g, db) ∧
          (StatusCode resp = 401 ∨ StatusCode resp = 405).
Proof.
  intros Hi He. unfold HandleRequest, handleGetWords, handleResults.
  rewrite Hi, He.
  destruct (String.eqb _ _); [eexists; split; [done|by left]| ].
  destruct (String.eqb _ _); eexists; (split; [done| ]); [by left|by right].
Qed.

Lemma HandleRequest_without_email_witness :
  let req := mkRequest "POST" (mkEvent (mkAuthorizer None (Some None)) ∅ None) in
  (initErr (Scenario.g0 0) = false ∧
   extractEmail (req_event req) = inr "Unauthorized: Email not found"%string) ∧
  ∃ resp,
    HandleRequest req Scenario.order_ABCDE 7 (Scenario.g0 0) Scenario.db1
      = Some (Ok resp, Scenario.g0 0, Scenario.db1) ∧
    (StatusCode resp = 401 ∨ StatusCode resp = 405).
Proof.
  split; [split; reflexivity| ].
  apply (HandleRequest_without_email
           (mkRequest "POST" (mkEvent (mkAuthorizer None (Some None)) ∅ None))
           Scenario.order_ABCDE 7 (Scenario.g0 0) Scenario.db1
           "Unauthorized: Email not found"); reflexivity.
Defined.

(** ** The user cache *)

(** X5. A successful [getUserIdByEmail] leaves the id in the cache
    under the address and touches no other cache entry; from then on the
    same address resolves to the same id without any store call, whatever
    the store holds or answers (a cached id is never invalidated). *)
Theorem getUserIdByEmail_cached (email : string) (g g1 : Globals)
    (db db1 : DB) (id : string) :
  getUserIdByEmail email g db = (Ok id, g1, db1) →
  userCache g1 !! email = Some id ∧
  (∀ e, e ≠ email → userCache g1 !! e = userCache g !! e) ∧
  ∀ db2, getUserIdByEmail email g1 db2 = (Ok id, g1, db2).
Proof.
  unfold getUserIdByEmail, db_Query_users.
  destruct (userCache g !! email) as [id0| ] eqn:Hc.
  - intros [= <- <- <-]. split_and!; [done|done| ].
    intros db2. by rewrite Hc.
  - destruct (failing db); [done| ].
    destruct (filter _ _) as [ |u us]; [done| ].
    intros [= <- <- <-]. simpl. split_and!.
    + by rewrite lookup_insert_eq.
    + intros e He. by rewrite lookup_insert_ne.
    + intros db2. by rewrite lookup_insert_eq.
Qed.

Lemma getUserIdByEmail_cached_witness :
  let out := getUserIdByEmail "u1@example.org" (Scenario.g0 0) Scenario.db1 in
  getUserIdByEmail "u1@example.org" (Scenario.g0 0) Scenario.db1
    = (Ok "u1"%string, out.1.2, out.2) ∧
  userCache out.1.2 !! "u1@example.org"%string = Some "u1"%string ∧
  (∀ e, e ≠ "u1@example.org"%string →
        userCache out.1.2 !! e = userCache (Scenario.g0 0) !! e) ∧
  ∀ db2, getUserIdByEmail "u1@example.org" out.1.2 db2
         = (Ok "u1"%string, out.1.2, db2).
Proof.
  split; [vm_compute; reflexivity| ].
  apply (getUserIdByEmail_cached "u1@example.org" (Scenario.g0 0)
           (getUserIdByEmail "u1@example.org" (Scenario.g0 0) Scenario.db1).1.2
           Scenario.db1
           (getUserIdByEmail "u1@example.org" (Scenario.g0 0) Scenario.db1).2
           "u1").
  vm_compute. reflexivity.
Defined.

(** X6. A failed [getUserIdByEmail] caches nothing: it happens only on
    a store failure or when no user has the address, the cache is left
    as it was, and as soon as the store answers with a user for the
    address the same call resolves to the first such user. *)
Theorem getUserIdByEmail_failure_not_cached (email : string) (g : Globals)
    (db : DB) :
  (getUserIdByEmail email g db).1.1 = Err →
  (getUserIdByEmail email g db).1.2 = g ∧
  (failing db = true ∨ ∀ u, u ∈ Users db → u_email u ≠ email) ∧
  ∀ db2 u us,
    failing db2 = false →
    filter (λ u, u_email u = email) (Users db2) = u :: us →
    (getUserIdByEmail email g db2).1.1 = Ok (u_userId u).
Proof.
  unfold getUserIdByEmail, db_Query_users.
  destruct (userCache g !! email) as [id0| ] eqn:Hc; [done| ].
  destruct (failing db).
  - intros _. split_and!; [done|by left| ].
    intros db2 u us -> ->. done.
  - destruct (filter _ (Users db)) as [ |u0 us0] eqn:Hf; [ |done].
    intros _. split_and!; [done| | ].
    + right. intros u Hu He.
      assert (u ∈ filter (λ u, u_email u = email) (Users db)) as Hin
        by (apply list_elem_of_filter; done).
      rewrite Hf in Hin. by apply elem_of_nil in Hin.
    + intros db2 u us -> ->. done.
Qed.

(** An address that no user has. *)
Lemma getUserIdByEmail_failure_not_cached_witness :
  let g := Scenario.g0 0 in
  (getUserIdByEmail "u2@example.org" g Scenario.db1).1.1 = Err ∧
  (getUserIdByEmail "u2@example.org" g Scenario.db1).1.2 = g ∧
  (failing Scenario.db1 = true ∨
   ∀ u, u ∈ Users Scenario.db1 → u_email u ≠ "u2@example.org"%string) ∧
  ∀ db2 u us,
    failing db2 = false →
    filter (λ u, u_email u = "u2@example.org"%string) (Users db2) = u :: us →
    (getUserIdByEmail "u2@example.org" g db2).1.1 = Ok (u_userId u).
Proof.
  split; [reflexivity| ].
  apply (getUserIdByEmail_failure_not_cached "u2@example.org" (Scenario.g0 0)
           Scenario.db1).
  reflexivity.
Defined.

(** ** The sampler at its bounds *)

Lemma reservoir_fill (ws : list (string * Word)) :
  ∀ limit i acc r,
    i + Z.of_nat (length ws) ≤ limit →
    reservoir limit ws i acc r = Ok (acc ++ ws.*2, r).
Proof.
  induction ws as [ |[k0 w] ws IH]; intros limit i acc r Hle; simpl.
  - by rewrite app_nil_r.
  - simpl in Hle. destruct (Z.ltb_spec i limit); [ |lia].
    rewrite IH by lia. by rewrite <- app_assoc.
Qed.

(** X7. When at least as many words are asked for as the catalog
    holds, [getRandomWords] returns the whole catalog, in the order of
    the range, and draws no random number: the source is left freshly
    seeded. *)
Theorem getRandomWords_whole_catalog (limit : Z)
    (order : list (string * Word)) (now : Z) (g : Globals) :
  Z.of_nat (length order) ≤ limit →
  getRandomWords limit order now g
  = (Ok order.*2, set_rnd (Seed now (rnd g)) g).
Proof.
  intros Hle. unfold getRandomWords. by rewrite reservoir_fill by lia.
Qed.

Lemma getRandomWords_whole_catalog_witness :
  Z.of_nat (length Scenario.order_ABCDE) ≤ 8 ∧
  getRandomWords 8 Scenario.order_ABCDE 7 (Scenario.g0 0)
  = (Ok Scenario.order_ABCDE.*2,
     set_rnd (Seed 7 (rnd (Scenario.g0 0))) (Scenario.g0 0)).
Proof.
  split; [simpl; lia| ].
  apply (getRandomWords_whole_catalog 8 Scenario.order_ABCDE 7 (Scenario.g0 0)).
  simpl. lia.
Defined.

Lemma reservoir_nothing (ws : list (string * Word)) :
  ∀ limit i r,
    limit ≤ 0 → 0 ≤ i →
    ∃ r', reservoir limit ws i [] r = Ok ([], r').
Proof.
  induction ws as [ |[k0 w] ws IH]; intros limit i r Hl Hi; simpl; [by eexists| ].
  destruct (Z.ltb_spec i limit); [lia| ].
  destruct (Intn_range (i + 1) r) as (k & r1 & -> & Hk & _); [lia| ].
  destruct (Z.ltb_spec k limit); [lia| ]. apply IH; lia.
Qed.

(** X8. For a limit that is zero or negative [getRandomWords] returns
    no word and does not panic. *)
Theorem getRandomWords_nonpositive (limit : Z)
    (order : list (string * Word)) (now : Z) (g : Globals) :
  limit ≤ 0 → (getRandomWords limit order now g).1 = Ok [].
Proof.
  intros Hl. unfold getRandomWords.
  destruct (reservoir_nothing order limit 0 (Seed now (rnd g))) as [r' ->];
    [done|done| ]. done.
Qed.

Lemma getRandomWords_nonpositive_witness :
  -2 ≤ 0 ∧ (getRandomWords (-2) Scenario.order_ABCDE 7 (Scenario.g0 0)).1 = Ok [].
Proof.
  split; [lia| ].
  apply (getRandomWords_nonpositive (-2) Scenario.order_ABCDE 7 (Scenario.g0 0)).
  lia.
Defined.

(** ** The performance query *)

Lemma length_omap_le {A B : Type} (f : A → option B) (l : list A) :
  (length (omap f l) ≤ length l)%nat.
Proof.
  induction l as [ |a l IH]; csimpl; [done| ].
  destruct (f a); csimpl; lia.
Qed.

Lemma insert_by_ratio_perm (x : WordStatistics) (l : list WordStatistics) :
  insert_by_ratio x l ≡ₚ x :: l.
Proof.
  induction l as [ |y l IH]; simpl; [done| ].
  destruct (Qle_bool _ _); [done| ].
  rewrite IH. apply perm_swap.
Qed.

Lemma sort_by_ratio_perm (l : list WordStatistics) : sort_by_ratio l ≡ₚ l.
Proof.
  induction l as [ |x l IH]; simpl; [done| ].
  by rewrite insert_by_ratio_perm, IH.
Qed.

(** X9. [getPoorPerformanceWords] returns an error exactly when the
    query fails; otherwise it returns at most limit/2 words, each of
    them the catalog's entry for its id, and each the word of some
    statistics record of that user: statistics whose word is not in the
    catalog are dropped silently. *)
Theorem getPoorPerformanceWords_bounds (userID : string) (limit : Z)
    (g : Globals) (db : DB) :
  keyed (cachedWords g) →
  match (getPoorPerformanceWords userID limit g db).1 with
  | Ok ws =>
      failing db = false ∧
      Z.of_nat (length ws) ≤ Z.max 0 (limit ÷ 2) ∧
      (∀ w, w ∈ ws → cachedWords g !! word w = Some w) ∧
      (∀ w, w ∈ ws → ∃ k x, Stats db !! k = Some x ∧ userId x = userID ∧
                            ws_word x = word w)
  | Err => failing db = true
  | Panic => False
  end.
Proof.
  intros Hk. unfold getPoorPerformanceWords, db_Query_stats.
  destruct (failing db); [done| ]. simpl. split_and!; [done| | | ].
  - etrans; [apply inj_le, length_omap_le| ].
    rewrite length_fmap, length_take. lia.
  - intros w (k & _ & Hw)%list_elem_of_omap. by rewrite (Hk _ _ Hw).
  - intros w (k & Hin & Hw)%list_elem_of_omap.
    apply list_elem_of_fmap in Hin as (x & -> & Hx).
    apply (subseteq_take _ _ _) in Hx.
    rewrite sort_by_ratio_perm in Hx.
    apply list_elem_of_filter in Hx as [Hu Hx].
    apply list_elem_of_fmap in Hx as ([k x'] & -> & Hx).
    apply elem_of_map_to_list in Hx.
    exists k, x'. split_and!; [done|done| ]. symmetry. by apply Hk.
Qed.

Lemma scenario_keyed : keyed (cachedWords (Scenario.g0 0)).
Proof.
  apply (load_cache_keyed
           [Scenario.A; Scenario.B; Scenario.C; Scenario.D; Scenario.E]).
Qed.

Lemma getPoorPerformanceWords_bounds_witness :
  keyed (cachedWords (Scenario.g0 0)) ∧
  match (getPoorPerformanceWords "u1" 3 (Scenario.g0 0) Scenario.db1).1 with
  | Ok ws =>
      failing Scenario.db1 = false ∧
      Z.of_nat (length ws) ≤ Z.max 0 (3 ÷ 2) ∧
      (∀ w, w ∈ ws → cachedWords (Scenario.g0 0) !! word w = Some w) ∧
      (∀ w, w ∈ ws → ∃ k x, Stats Scenario.db1 !! k = Some x ∧
                            userId x = "u1"%string ∧ ws_word x = word w)
  | Err => failing Scenario.db1 = true
  | Panic => False
  end.
Proof.
  split; [exact scenario_keyed| ].
  apply (getPoorPerformanceWords_bounds "u1" 3 (Scenario.g0 0) Scenario.db1).
  exact scenario_keyed.
Defined.

(** ** The selector, in full *)

Lemma seen_empty :
  ∀ id, is_Some ((∅ : gmap string bool) !! id) ↔ id ∈ word <$> ([] : list Word).
Proof.
  intros id. rewrite lookup_empty. simpl. split; [by intros [? ?]| ].
  intros H. by apply elem_of_nil in H.
Qed.

(** What [getWords] returns for a positive limit when the query
    answers: the weak words without repetition, then the fill. *)
Lemma getWords_shape (userID : string) (limit : Z)
    (order : list (string * Word)) (now : Z) (g : Globals) (db : DB) :
  0 < limit → failing db = false →
  ∃ poor weak fill,
    (getPoorPerformanceWords userID limit g db).1 = Ok poor ∧
    (add_unseen poor [] ∅).1 = weak ∧
    (getWords userID limit order now g db).1.1 = Ok (weak ++ fill) ∧
    NoDup (word <$> weak ++ fill) ∧
    (∀ x, x ∈ weak → x ∈ poor) ∧
    (keyed (cachedWords g) →
     ∀ x, x ∈ poor → cachedWords g !! word x = Some x) ∧
    (∀ x, x ∈ fill → x ∈ order.*2) ∧
    Z.of_nat (length (weak ++ fill)) ≤ limit ∧
    Z.of_nat (length weak) ≤ limit ÷ 2 ∧
    (NoDup (word <$> order.*2) →
     Z.min (limit - Z.of_nat (length weak)) (Z.of_nat (length order))
     ≤ Z.of_nat (length (weak ++ fill))).
Proof.
  intros Hlim Hf. unfold getWords.
  destruct (getPoorPerformanceWords userID limit g db) as [o db'] eqn:Hp.
  assert (∃ poor, o = Ok poor ∧ Z.of_nat (length poor) ≤ limit ÷ 2 ∧
                 (keyed (cachedWords g) →
                  ∀ x, x ∈ poor → cachedWords g !! word x = Some x))
    as (poor & -> & Hlen & Hcat).
  { revert Hp. unfold getPoorPerformanceWords, db_Query_stats. rewrite Hf.
    intros [= <- _]. eexists. split_and!; [done| | ].
    - etrans; [apply inj_le, length_omap_le| ].
      rewrite length_fmap, length_take.
      assert (0 ≤ limit ÷ 2) by (apply Z.quot_pos; lia). lia.
    - intros Hk x (k & _ & Hx)%list_elem_of_omap. by rewrite (Hk _ _ Hx). }
  assert (limit ÷ 2 < limit) as Hhalf by (apply Z.quot_lt; lia).
  exists poor.
  destruct (Z.ltb_spec limit 0) as [ |_]; [lia| ].
  destruct (add_unseen_spec poor [] ∅ seen_empty) as
    (weak & seen & Hadd & Hs & Hnd & Hin & Hle & _); [constructor| ].
  simpl in Hadd, Hs, Hnd. rewrite Hadd. simpl.
  assert (Z.of_nat (length weak) < limit) as Hlt by lia.
  destruct (Z.ltb_spec (Z.of_nat (length weak)) limit) as [_| ]; [ |lia].
  destruct (getRandomWords_ok (limit - Z.of_nat (length weak)) order now g)
    as (rw & r' & -> & Hrl & Hsub & Hrnd & _); [lia| ].
  destruct (add_unseen_spec rw weak seen Hs Hnd)
    as (fill & seen' & -> & _ & Hnd' & Hfin & Hfl & Hall).
  assert (Z.of_nat (length (weak ++ fill)) ≤ limit) as Htot
    by (rewrite length_app; lia).
  destruct (Z.ltb_spec limit (Z.of_nat (length (weak ++ fill)))) as [ |_]; [lia| ].
  exists weak, fill. simpl. split_and!; auto; [lia| ].
  intros Hod.
  assert (length rw ≤ length (weak ++ fill))%nat as Hcmp; [ |lia].
  rewrite <- (length_fmap word rw), <- (length_fmap word (weak ++ fill)).
  apply submseteq_length, NoDup_submseteq; [by apply Hrnd| ].
  intros id (x & -> & Hx)%list_elem_of_fmap. by apply Hall.
Qed.

(** X10. Weak words come first: when the performance query delivers
    [poor] (of distinct ids), [getWords] returns [poor] itself followed
    by fill words taken from the range over the catalog, none of which
    repeats a weak word or another fill word. *)
Theorem getWords_weak_words_first (userID : string) (limit : Z)
    (order : list (string * Word)) (now : Z) (g : Globals) (db : DB)
    (poor : list Word) :
  0 < limit →
  (getPoorPerformanceWords userID limit g db).1 = Ok poor →
  NoDup (word <$> poor) →
  ∃ fill,
    (getWords userID limit order now g db).1.1 = Ok (poor ++ fill) ∧
    (∀ x, x ∈ fill → x ∈ order.*2 ∧ word x ∉ word <$> poor) ∧
    NoDup (word <$> fill).
Proof.
  intros Hlim Hp Hnd.
  assert (failing db = false) as Hf.
  { revert Hp. unfold getPoorPerformanceWords, db_Query_stats.
    by destruct (failing db). }
  destruct (getWords_shape userID limit order now g db Hlim Hf)
    as (poor' & weak & fill & Hp' & Hw & Hres & Hnd' & _ & _ & Hfill & _).
  rewrite Hp in Hp'. injection Hp' as <-.
  assert (weak = poor) as ->.
  { rewrite <- Hw. apply add_unseen_distinct; [apply seen_empty|done]. }
  exists fill. rewrite fmap_app in Hnd'.
  apply NoDup_app in Hnd' as (_ & Hdis & Hndf).
  split_and!; [done| |done].
  intros x Hx. split; [by apply Hfill| ].
  intros Hin. apply (Hdis _ Hin). apply list_elem_of_fmap. by exists x.
Qed.

Lemma getWords_weak_words_first_witness :
  (0 < 3 ∧
   (getPoorPerformanceWords "u1" 3 (Scenario.g0 0) Scenario.db1).1
     = Ok [Scenario.C] ∧
   NoDup (word <$> [Scenario.C])) ∧
  ∃ fill,
    (getWords "u1" 3 Scenario.order_ABCDE 7 (Scenario.g0 0) Scenario.db1).1.1
      = Ok ([Scenario.C] ++ fill) ∧
    (∀ x, x ∈ fill → x ∈ Scenario.order_ABCDE.*2 ∧
                     word x ∉ word <$> [Scenario.C]) ∧
    NoDup (word <$> fill).
Proof.
  split.
  - split_and!; [lia|vm_compute; reflexivity|apply NoDup_singleton].
  - apply (getWords_weak_words_first "u1" 3 Scenario.order_ABCDE 7
             (Scenario.g0 0) Scenario.db1 [Scenario.C]);
      [lia|vm_compute; reflexivity|apply NoDup_singleton].
Defined.

(** X11. With the cache keyed as [init] builds it and a query that
    answers, [getWords] returns at least min(limit - limit/2, N) words
    for a catalog of N words, and every returned word is the catalog's
    entry for its id. *)
Theorem getWords_at_least_half (userID : string) (limit : Z)
    (order : list (string * Word)) (now : Z) (g : Globals) (db : DB) :
  keyed (cachedWords g) →
  order ≡ₚ map_to_list (cachedWords g) →
  0 < limit → failing db = false →
  ∃ ws,
    (getWords userID limit order now g db).1.1 = Ok ws ∧
    Z.min (limit - limit ÷ 2) (Z.of_nat (size (cachedWords g)))
      ≤ Z.of_nat (length ws) ∧
    (∀ w, w ∈ ws → cachedWords g !! word w = Some w).
Proof.
  intros Hk Hperm Hlim Hf.
  destruct (range_order_ids _ _ Hk Hperm) as (Hids & Hnd & Hlen & Hin).
  destruct (getWords_shape userID limit order now g db Hlim Hf)
    as (poor & weak & fill & Hp & _ & Hres & _ & Hweak & Hcat & Hfill & _ & Hwl
        & Hlow).
  exists (weak ++ fill). split_and!; [done| | ].
  - rewrite Hids in Hlow. specialize (Hlow Hnd). lia.
  - intros w [Hw|Hw]%elem_of_app; [by apply (Hcat Hk), Hweak| ].
    by apply Hin, Hfill.
Qed.

Lemma getWords_at_least_half_witness :
  let g := Scenario.g0 0 in
  let order := map_to_list (cachedWords g) in
  (keyed (cachedWords g) ∧ order ≡ₚ map_to_list (cachedWords g) ∧ 0 < 3 ∧
   failing Scenario.db1 = false) ∧
  ∃ ws,
    (getWords "u1" 3 order 7 g Scenario.db1).1.1 = Ok ws ∧
    Z.min (3 - 3 ÷ 2) (Z.of_nat (size (cachedWords g))) ≤ Z.of_nat (length ws) ∧
    (∀ w, w ∈ ws → cachedWords g !! word w = Some w).
Proof.
  split; [split_and!; [exact scenario_keyed|reflexivity|lia|reflexivity] | ].
  apply (getWords_at_least_half "u1" 3 (map_to_list (cachedWords (Scenario.g0 0)))
           7 (Scenario.g0 0) Scenario.db1);
    [exact scenario_keyed|reflexivity|lia|reflexivity].
Defined.

(** X12. For a user without any statistics record [getWords] returns
    exactly min(limit, N) words, pairwise distinct by id, all from the
    catalog. *)
Theorem getWords_without_statistics (userID : string) (limit : Z)
    (order : list (string * Word)) (now : Z) (g : Globals) (db : DB) :
  keyed (cachedWords g) →
  order ≡ₚ map_to_list (cachedWords g) →
  0 < limit → failing db = false →
  (∀ k x, Stats db !! k = Some x → userId x ≠ userID) →
  ∃ ws,
    (getWords userID limit order now g db).1.1 = Ok ws ∧
    length ws = Nat.min (Z.to_nat limit) (size (cachedWords g)) ∧
    NoDup (word <$> ws) ∧
    (∀ w, w ∈ ws → cachedWords g !! word w = Some w).
Proof.
  intros Hk Hperm Hlim Hf Hnone.
  destruct (range_order_ids _ _ Hk Hperm) as (Hids & Hnd & Hlen & Hin).
  destruct (getWords_shape userID limit order now g db Hlim Hf)
    as (poor & weak & fill & Hp & Hw & Hres & Hnd' & Hweak & _ & Hfill & Hup & _
        & Hlow).
  assert (poor = []) as ->.
  { revert Hp. unfold getPoorPerformanceWords, db_Query_stats. rewrite Hf.
    intros [= <-].
    destruct (filter _ _) as [ |x xs] eqn:Hfil;
      [simpl; by rewrite take_nil| ].
    assert (x ∈ filter (λ s, userId s = userID) (map_to_list (Stats db)).*2)
      as [Hu Hx]%list_elem_of_filter by (rewrite Hfil; by left).
    apply list_elem_of_fmap in Hx as ([k x'] & -> & Hx).
    apply elem_of_map_to_list in Hx. by destruct (Hnone k x' Hx). }
  simpl in Hw. subst weak. simpl in *.
  exists fill. rewrite Hids in Hlow. specialize (Hlow Hnd).
  split_and!; [done| |done| ].
  - assert (length fill ≤ length order)%nat; [ |lia].
    rewrite <- (length_fmap word fill), <- (length_fmap snd order).
    rewrite <- (length_fmap word order.*2).
    apply submseteq_length, NoDup_submseteq; [done| ].
    intros id (x & -> & Hx)%list_elem_of_fmap.
    apply list_elem_of_fmap. exists x. split; [done|by apply Hfill].
  - intros w Hw. by apply Hin, Hfill.
Qed.

Lemma getWords_without_statistics_witness :
  let g := Scenario.g0 0 in
  let order := map_to_list (cachedWords g) in
  (keyed (cachedWords g) ∧ order ≡ₚ map_to_list (cachedWords g) ∧ 0 < 7 ∧
   failing Scenario.db1 = false ∧
   ∀ k x, Stats Scenario.db1 !! k = Some x → userId x ≠ "u9"%string) ∧
  ∃ ws,
    (getWords "u9" 7 order 7 g Scenario.db1).1.1 = Ok ws ∧
    length ws = Nat.min (Z.to_nat 7) (size (cachedWords g)) ∧
    NoDup (word <$> ws) ∧
    (∀ w, w ∈ ws → cachedWords g !! word w = Some w).
Proof.
  assert (∀ k x, Stats Scenario.db1 !! k = Some x → userId x ≠ "u9"%string) as Hno.
  { intros k x Hx. apply elem_of_map_to_list in Hx. revert Hx.
    replace (map_to_list (Stats Scenario.db1)) with
      [(("u1"%string, "C"%string), mkWordStatistics "u1" "C" 5 1 (1 # 5));
       (("u1"%string, "D"%string), mkWordStatistics "u1" "D" 5 2 (2 # 5))]
      by (vm_compute; reflexivity).
    rewrite !elem_of_cons. intros [[= _ ->]|[[= _ ->]|H]]; try done.
    by apply elem_of_nil in H. }
  split; [split_and!; [exact scenario_keyed|reflexivity|lia|reflexivity|exact Hno] | ].
  apply (getWords_without_statistics "u9" 7
           (map_to_list (cachedWords (Scenario.g0 0))) 7 (Scenario.g0 0)
           Scenario.db1);
    [exact scenario_keyed|reflexivity|lia|reflexivity|exact Hno].
Defined.

(** ** handleGetWords *)

(** X13. [handleGetWords] never panics: for every event it returns a
    response whose status is 200, 400, 401 or 500; a 200 response carries
    a list of words without repeated id and no longer than the count
    asked for (10 when the parameter is missing or empty); and the
    statistics table is never written. *)
Theorem handleGetWords_responses (event : Event)
    (order : list (string * Word)) (now : Z) (g : Globals) (db : DB) :
  let s := default ""%string (QueryStringParameters event !! "numWords"%string) in
  let numWordsStr := if String.eqb s "" then "10"%string else s in
  ∃ resp g' db',
    handleGetWords event order now g db = (Ok resp, g', db') ∧
    (StatusCode resp = 200 ∨ StatusCode resp = 400 ∨
     StatusCode resp = 401 ∨ StatusCode resp = 500) ∧
    (StatusCode resp = 200 →
     ∃ ws n, Body resp = Json ws ∧ Atoi numWordsStr = Some n ∧
             NoDup (word <$> ws) ∧ Z.of_nat (length ws) ≤ n) ∧
    Stats db' = Stats db.
Proof.
  intros s numWordsStr. unfold handleGetWords. fold s. fold numWordsStr.
  destruct (extractEmail event) as [email|msg];
    [ |eexists _, _, _; split_and!; [done|tauto|done|done]].
  destruct (Atoi numWordsStr) as [n| ];
    [ |eexists _, _, _; split_and!; [done|tauto|done|done]].
  destruct (Z.leb_spec n 0) as [ |Hn];
    [eexists _, _, _; split_and!; [done|tauto|done|done]| ].
  pose proof (getUserIdByEmail_globals email g db) as Hu.
  destruct (getUserIdByEmail email g db) as [[[uid| | ] g1] db1]; simpl in Hu;
    destruct Hu as (_ & _ & _ & _ & _ & Hst & _);
    try (eexists _, _, _; split_and!; [done|tauto|done|done]).
  pose proof (getWords_frame uid n order now g1 db1) as Hw.
  destruct (failing db1) eqn:Hf.
  - revert Hw. unfold getWords, getPoorPerformanceWords, db_Query_stats.
    rewrite Hf. simpl. intros _.
    eexists _, _, _; split_and!; [done|tauto|done|done].
  - destruct (getWords_shape uid n order now g1 db1 Hn Hf)
      as (poor & weak & fill & _ & _ & Hres & Hnd & _ & _ & _ & Hlen & _).
    destruct (getWords uid n order now g1 db1) as [[o g2] db2].
    simpl in Hres, Hw. subst o.
    destruct Hw as (_ & _ & _ & Hst2 & _).
    eexists _, _, _; split_and!; [done|tauto| |congruence].
    intros _. exists (weak ++ fill), n. by split_and!.
Qed.

(** ** handleResults *)

Lemma update_each_touches (userId0 : string) (rs : list WordResults) :
  ∀ db k,
    Stats (update_each userId0 rs db).2 !! k ≠ Stats db !! k →
    k.1 = userId0 ∧ k.2 ∈ wr_word <$> rs.
Proof.
  induction rs as [ |r rs IH]; intros db k; simpl; [done| ].
  destruct (updateWordStatistics_frame userId0 r db) as (_ & Hother & _).
  destruct (updateWordStatistics userId0 r db) as [[[]| | ] db'] eqn:Hu;
    simpl in Hother.
  - destruct (decide (k = (userId0, wr_word r))) as [->|Hne].
    + intros _. simpl. split; [done|by left].
    + rewrite <- (Hother k Hne). intros H. apply IH in H as [? ?].
      split; [done|by right].
  - destruct (decide (k = (userId0, wr_word r))) as [->|Hne].
    + intros _. simpl. split; [done|by left].
    + simpl. by rewrite (Hother k Hne).
  - destruct (decide (k = (userId0, wr_word r))) as [->|Hne].
    + intros _. simpl. split; [done|by left].
    + simpl. by rewrite (Hother k Hne).
Qed.

(** X14. A submission changes only the records of its own user for
    the words it names: if the record under a key differs after
    [handleResults], the event carries an address that resolves to the
    key's user id, and the key's word is among the submitted words. *)
Theorem handleResults_touches_only_submitted (event : Event) (g : Globals)
    (db : DB) (k : string * string) :
  Stats (handleResults event g db).2 !! k ≠ Stats db !! k →
  ∃ email rs,
    extractEmail event = inl email ∧
    (getUserIdByEmail email g db).1.1 = Ok k.1 ∧
    json_body event = Some rs ∧
    k.2 ∈ wr_word <$> rs.
Proof.
  unfold handleResults.
  destruct (extractEmail event) as [email|msg];
    [ |simpl; intros H; by destruct H].
  pose proof (getUserIdByEmail_globals email g db) as Hu.
  destruct (getUserIdByEmail email g db) as [[[uid| | ] g1] db1] eqn:Hg;
    simpl in Hu;
    destruct Hu as (_ & _ & _ & _ & _ & Hst & _);
    try (simpl; rewrite Hst; intros H; by destruct H).
  destruct (json_body event) as [rs| ];
    [ |simpl; rewrite Hst; intros H; by destruct H].
  pose proof (update_each_touches uid rs db1 k) as Ht.
  destruct (update_each uid rs db1) as [[[]| | ] db2]; simpl in *;
    rewrite <- Hst; intros H; apply Ht in H as [Hk1 Hk2];
    exists email, rs; split_and!; try done; rewrite Hg; simpl; congruence.
Qed.

Lemma handleResults_touches_only_submitted_witness :
  let ev := mkEvent (mkAuthorizer (Some "u1@example.org"%string) None) ∅
              (Some [Scenario.right_A]) in
  let k := ("u1"%string, "A"%string) in
  Stats (handleResults ev (Scenario.g0 0) Scenario.db1).2 !! k
    ≠ Stats Scenario.db1 !! k ∧
  ∃ email rs,
    extractEmail ev = inl email ∧
    (getUserIdByEmail email (Scenario.g0 0) Scenario.db1).1.1 = Ok k.1 ∧
    json_body ev = Some rs ∧
    k.2 ∈ wr_word <$> rs.
Proof.
  assert (Stats (handleResults
                   (mkEvent (mkAuthorizer (Some "u1@example.org"%string) None) ∅
                      (Some [Scenario.right_A]))
                   (Scenario.g0 0) Scenario.db1).2 !! ("u1"%string, "A"%string)
          ≠ Stats Scenario.db1 !! ("u1"%string, "A"%string)) as H
    by (vm_compute; discriminate).
  split; [exact H| ].
  exact (handleResults_touches_only_submitted _ _ _ _ H).
Defined.

(** X21. A submission answered 400 or 401 has written nothing: the
    statistics table is as before, and the event carried no address, or
    its address did not resolve, or its body did not decode. *)
Theorem handleResults_rejected_writes_nothing (event : Event) (g : Globals)
    (db : DB) :
  let out := handleResults event g db in
  StatusCode out.1.1 = 400 ∨ StatusCode out.1.1 = 401 →
  Stats out.2 = Stats db ∧
  (extractEmail event = inr "Unauthorized"%string ∨
   extractEmail event = inr "Unauthorized: Email not found"%string ∨
   (∃ email, extractEmail event = inl email ∧
             ((getUserIdByEmail email g db).1.1 = Err ∨ json_body event = None))).
Proof.
  intros out. subst out. unfold handleResults.
  destruct (extractEmail event) as [email|msg] eqn:He.
  - pose proof (getUserIdByEmail_globals email g db) as Hu.
    destruct (getUserIdByEmail email g db) as [[[uid| | ] g1] db1] eqn:Hg;
      simpl in Hu; destruct Hu as (_ & _ & _ & _ & _ & Hst & _).
    + destruct (json_body event) as [rs| ].
      * destruct (update_each uid rs db1) as [[[]| | ] db2]; simpl;
          intros [?|?]; done.
      * intros _. simpl. split; [done| ]. right; right. exists email.
        split; [done|by right].
    + intros _. simpl. split; [done| ]. right; right. exists email.
      split; [done| ]. left. by rewrite Hg.
    + exfalso. revert Hg. unfold getUserIdByEmail, db_Query_users.
      destruct (userCache g !! email); [done| ].
      destruct (failing db); [done| ]. by destruct (filter _ _).
  - intros _. simpl. split; [done| ].
    revert He. unfold extractEmail.
    destruct (auth_email _); [done| ].
    destruct (auth_claims _) as [[?| ]| ]; [done| | ]; intros [= <-]; auto.
Qed.

Lemma handleResults_rejected_writes_nothing_witness :
  let ev := mkEvent (mkAuthorizer (Some "u1@example.org"%string) None) ∅ None in
  let out := handleResults ev (Scenario.g0 0) Scenario.db1 in
  (StatusCode out.1.1 = 400 ∨ StatusCode out.1.1 = 401) ∧
  Stats out.2 = Stats Scenario.db1 ∧
  (extractEmail ev = inr "Unauthorized"%string ∨
   extractEmail ev = inr "Unauthorized: Email not found"%string ∨
   (∃ email, extractEmail ev = inl email ∧
             ((getUserIdByEmail email (Scenario.g0 0) Scenario.db1).1.1 = Err ∨
              json_body ev = None))).
Proof.
  split; [left; reflexivity| ].
  apply (handleResults_rejected_writes_nothing
           (mkEvent (mkAuthorizer (Some "u1@example.org"%string) None) ∅ None)
           (Scenario.g0 0) Scenario.db1).
  left. reflexivity.
Defined.

(** ** Outcomes applied one after the other *)

Lemma updateWordStatistics_step (userId0 : string) (r : WordResults)
    (db : DB) (n : Z) :
  (∀ k, fault db k = false) → 0 ≤ n → n + 1 ≤ max_int → healthy (n + 1) db →
  ∃ db',
    updateWordStatistics userId0 r db = (Ok (), db') ∧
    fault db' = fault db ∧ healthy n db' ∧
    counters db' (userId0, wr_word r)
    = ((counters db (userId0, wr_word r)).1 + 1,
       (counters db (userId0, wr_word r)).2 + outcome_value (isCorrect r)) ∧
    ∀ k, k ≠ (userId0, wr_word r) → Stats db' !! k = Stats db !! k.
Proof.
  intros F Hn Hmax Hh.
  set (key := (userId0, wr_word r)).
  assert (∃ a s, counters db key = (a, s) ∧ 0 ≤ s ≤ a ∧ a + n + 1 ≤ max_int)
    as (a & s & Hc & Hs & Ha).
  { unfold counters. destruct (Stats db !! key) as [x| ] eqn:Hx.
    - destruct (Hh _ _ Hx) as [? ?]. exists (attempts x), (success x).
      split_and!; [done|lia|lia|lia].
    - exists 0, 0. split_and!; [done|lia|lia|lia]. }
  pose proof Hc as Hc'. unfold counters in Hc'.
  destruct (bump_counters userId0 r (Stats db !! key) a s Hc' Hs) as (q & Hb & _);
    [lia| ].
  rewrite updateWordStatistics_unfold. cbv zeta. rewrite !F. fold key.
  rewrite Hb. simpl. eexists. split_and!; [done|done| | | ].
  - intros k x. simpl. rewrite lookup_insert. case_decide as Hk.
    + intros [= <-]. simpl. destruct (isCorrect r); simpl; lia.
    + intros Hx. destruct (Hh _ _ Hx). lia.
  - unfold counters. simpl. rewrite lookup_insert_eq. simpl.
    fold (counters db key). by rewrite Hc.
  - intros k Hk. simpl. by rewrite lookup_insert_ne.
Qed.

Lemma submitted_cons (w : string) (r : WordResults) (rs : list WordResults) :
  submitted w (r :: rs)
  = (if decide (wr_word r = w) then 1 else 0) + submitted w rs ∧
  submitted_correct w (r :: rs)
  = (if decide (wr_word r = w) then outcome_value (isCorrect r) else 0)
    + submitted_correct w rs.
Proof.
  unfold submitted, submitted_correct. rewrite !filter_cons.
  destruct (decide (wr_word r = w)) as [Hw|Hw].
  - split; [simpl; lia| ].
    destruct (isCorrect r) eqn:Hc; simpl.
    + rewrite decide_True by done. simpl. lia.
    + rewrite decide_False by (intros [_ ?]; done). lia.
  - split; [lia| ]. rewrite decide_False by (intros [? _]; done). lia.
Qed.

(** X15. Outcomes applied one after the other are all counted: with
    a store that answers every call and records that satisfy
    0 <= success <= attempts with room for the list below the largest
    int, [update_each] returns without error, leaves every record
    satisfying 0 <= success <= attempts, and has raised, for every word,
    attempts by the number of outcomes for that word and success by the
    number of correct ones. *)
Theorem update_each_counts (userId0 : string) (rs : list WordResults)
    (db : DB) :
  (∀ k, fault db k = false) →
  Z.of_nat (length rs) ≤ max_int →
  healthy (Z.of_nat (length rs)) db →
  ∃ db',
    update_each userId0 rs db = (Ok (), db') ∧
    healthy 0 db' ∧
    ∀ w, counters db' (userId0, w)
         = ((counters db (userId0, w)).1 + submitted w rs,
            (counters db (userId0, w)).2 + submitted_correct w rs).
Proof.
  revert db. induction rs as [ |r rs IH]; intros db F Hmax Hh.
  - exists db. simpl. split_and!; [done|done| ].
    intros w. unfold submitted, submitted_correct. simpl.
    rewrite !Z.add_0_r. by destruct (counters db (userId0, w)).
  - simpl length in *. rewrite Nat2Z.inj_succ in *.
    destruct (updateWordStatistics_step userId0 r db (Z.of_nat (length rs)))
      as (db1 & Hu & F1 & Hh1 & Hc1 & Ho1); [done|lia|lia| | ].
    { intros k x Hx. destruct (Hh k x Hx). lia. }
    destruct (IH db1) as (db' & He & Hh' & Hc'); [by rewrite F1|lia|done| ].
    exists db'. simpl. rewrite Hu. split_and!; [done|done| ].
    intros w. rewrite Hc'. destruct (submitted_cons w r rs) as [-> ->].
    destruct (decide (wr_word r = w)) as [<-|Hne].
    + rewrite Hc1. simpl. f_equal; lia.
    + assert (counters db1 (userId0, w) = counters db (userId0, w)) as ->.
      { unfold counters. rewrite Ho1; [done|congruence]. }
      f_equal; lia.
Qed.

Lemma healthy_mono (n m : Z) (db : DB) : n ≤ m → healthy m db → healthy n db.
Proof. intros Hnm H k x Hx. destruct (H k x Hx). lia. Qed.

Lemma scenario_healthy : healthy 1000 Scenario.db1.
Proof.
  intros k x Hx. apply elem_of_map_to_list in Hx. revert Hx.
  replace (map_to_list (Stats Scenario.db1)) with
    [(("u1"%string, "C"%string), mkWordStatistics "u1" "C" 5 1 (1 # 5));
     (("u1"%string, "D"%string), mkWordStatistics "u1" "D" 5 2 (2 # 5))]
    by (vm_compute; reflexivity).
  rewrite !elem_of_cons. unfold max_int.
  intros [[= _ ->]|[[= _ ->]|H]]; simpl; try lia.
  by apply elem_of_nil in H.
Qed.

Lemma update_each_counts_witness :
  let rs := [mkWordResults "C" true; mkWordResults "A" false;
             mkWordResults "C" false] in
  ((∀ k, fault Scenario.db1 k = false) ∧ Z.of_nat (length rs) ≤ max_int ∧
   healthy (Z.of_nat (length rs)) Scenario.db1) ∧
  ∃ db',
    update_each "u1" rs Scenario.db1 = (Ok (), db') ∧
    healthy 0 db' ∧
    ∀ w, counters db' ("u1"%string, w)
         = ((counters Scenario.db1 ("u1"%string, w)).1 + submitted w rs,
            (counters Scenario.db1 ("u1"%string, w)).2 + submitted_correct w rs).
Proof.
  split.
  - split_and!; [intros k; reflexivity|vm_compute; discriminate|
     apply (healthy_mono _ 1000); [simpl; lia|exact scenario_healthy]].
  - apply (update_each_counts "u1"
             [mkWordResults "C" true; mkWordResults "A" false;
              mkWordResults "C" false] Scenario.db1);
      [intros k; reflexivity|vm_compute; discriminate|
     apply (healthy_mono _ 1000); [simpl; lia|exact scenario_healthy]].
Defined.

Lemma HandleRequest_catalog_read_only_witness :
  let req := mkRequest "GET" (Scenario.with_email ∅) in
  let out := handleGetWords (req_event req) Scenario.order_ABCDE 7
               (Scenario.g0 0) Scenario.db1 in
  HandleRequest req Scenario.order_ABCDE 7 (Scenario.g0 0) Scenario.db1
    = Some (out.1.1, out.1.2, out.2) ∧
  cachedWords out.1.2 = cachedWords (Scenario.g0 0) ∧ initErr out.1.2 = false ∧
  Words out.2 = Words Scenario.db1 ∧ Users out.2 = Users Scenario.db1 ∧
  (HTTPMethod req ≠ "POST"%string → Stats out.2 = Stats Scenario.db1).
Proof.
  split; [vm_compute; reflexivity| ].
  eapply (HandleRequest_catalog_read_only
            (mkRequest "GET" (Scenario.with_email ∅)) Scenario.order_ABCDE 7
            (Scenario.g0 0) _ Scenario.db1 _ _).
  vm_compute. reflexivity.
Defined.

(** ** The first version of the lambda *)

(** X16. The first version of the handler answers 400 exactly when
    the count is missing, empty, not a number or not positive, and then
    without any store call; a 200 answer carries the first n words of
    the scan. *)
Theorem First_HandleRequest_count (event : Event) (db : DB) :
  let s := default ""%string (QueryStringParameters event !! "numWords"%string) in
  let out := First.HandleRequest event db in
  (StatusCode out.1 = 400
   ↔ Atoi s = None ∨ ∃ n, Atoi s = Some n ∧ n ≤ 0) ∧
  (StatusCode out.1 = 400 → out.2 = db) ∧
  (StatusCode out.1 = 200 →
   ∃ n, Atoi s = Some n ∧ 0 < n ∧ failing db = false ∧
        Body out.1 = Json (take (Z.to_nat n) (Words db))).
Proof.
  intros s out. subst out. unfold First.HandleRequest, First.getWords. fold s.
  destruct (String.eqb_spec s "") as [->|Hne].
  - simpl. split_and!; [ |done|done]. split; [by left|done].
  - destruct (Atoi s) as [n| ] eqn:Ha.
    + destruct (Z.leb_spec n 0).
      * simpl. split_and!; [ |done|done]. split; [right; by exists n|done].
      * destruct (failing db); simpl.
        -- split_and!; [ |done|done].
           split; [done| ]. intros [?|(n' & [= <-] & ?)]; [done|lia].
        -- split_and!; [ |done| ].
           ++ split; [done| ]. intros [?|(n' & [= <-] & ?)]; [done|lia].
           ++ intros _. by exists n.
    + simpl. split_and!; [ |done|done]. split; [by left|done].
Qed.

(** ** User provisioning *)

(** X17. With a store that answers, [storeUserIfNotExists] succeeds,
    and calling it again for the same address (with whatever new uuid)
    succeeds and changes nothing: the address ends up with as many items
    as it had, or one if it had none; no existing item is removed, and
    the only item that can be new is the one for this address. *)
Theorem storeUserIfNotExists_once (email0 name1 name2 uuid1 uuid2 t1 t2 : string)
    (db : Auth.DB) :
  (∀ k, Auth.fault db k = false) →
  let out1 := Auth.storeUserIfNotExists email0 name1 uuid1 t1 db in
  let out2 := Auth.storeUserIfNotExists email0 name2 uuid2 t2 out1.2 in
  out1.1 = Ok () ∧ out2.1 = Ok () ∧
  Auth.Users out2.2 = Auth.Users out1.2 ∧
  length (filter (λ u, Auth.email u = email0) (Auth.Users out2.2))
  = Nat.max 1 (length (filter (λ u, Auth.email u = email0) (Auth.Users db))) ∧
  (∀ u, u ∈ Auth.Users db → u ∈ Auth.Users out2.2) ∧
  (∀ u, u ∈ Auth.Users out2.2 →
        u ∈ Auth.Users db ∨ u = Auth.mkItem uuid1 email0 name1 t1 "google").
Proof.
  intros F out1 out2. subst out2 out1.
  unfold Auth.storeUserIfNotExists, Auth.getUserByEmail, Auth.db_PutItem,
    Auth.failing.
  rewrite F. simpl.
  destruct (filter _ (Auth.Users db)) as [ |u us] eqn:Hfil; simpl.
  - rewrite !F. simpl. rewrite F. simpl.
    assert (filter (λ u, Auth.email u = email0)
              (Auth.Users db ++ [Auth.mkItem uuid1 email0 name1 t1 "google"])
            = [Auth.mkItem uuid1 email0 name1 t1 "google"]) as Hnew.
    { rewrite filter_app, Hfil. simpl. by rewrite filter_cons_True by done. }
    rewrite ?Hnew. simpl.
    split_and!; try done.
    + by rewrite Hnew.
    + intros u Hu. apply elem_of_app. by left.
    + intros u [Hu|Hu]%elem_of_app; [by left|right].
      by apply list_elem_of_singleton in Hu.
  - rewrite F. simpl. rewrite Hfil. simpl.
    split_and!; try done; [ |auto].
    rewrite ?Hfil. simpl. lia.
Qed.

Lemma storeUserIfNotExists_once_witness :
  let db := Auth.mkDB [] [] (λ _, false) in
  let out1 := Auth.storeUserIfNotExists "a@x.org" "Ann" "id-1" "t1" db in
  let out2 := Auth.storeUserIfNotExists "a@x.org" "Ann" "id-2" "t2" out1.2 in
  (∀ k, Auth.fault db k = false) ∧
  out1.1 = Ok () ∧ out2.1 = Ok () ∧
  Auth.Users out2.2 = Auth.Users out1.2 ∧
  length (filter (λ u, Auth.email u = "a@x.org"%string) (Auth.Users out2.2))
  = Nat.max 1 (length (filter (λ u, Auth.email u = "a@x.org"%string)
                         (Auth.Users db))) ∧
  (∀ u, u ∈ Auth.Users db → u ∈ Auth.Users out2.2) ∧
  (∀ u, u ∈ Auth.Users out2.2 →
        u ∈ Auth.Users db ∨ u = Auth.mkItem "id-1" "a@x.org" "Ann" "t1" "google").
Proof.
  split; [intros k; reflexivity| ].
  apply (storeUserIfNotExists_once "a@x.org" "Ann" "Ann" "id-1" "id-2" "t1" "t2"
           (Auth.mkDB [] [] (λ _, false))).
  intros k. reflexivity.
Defined.

(** X18. When [storeUserIfNotExists] returns an error, one of its two
    store calls failed and the Users table is as it was. *)
Theorem storeUserIfNotExists_failure (email0 name0 uuid t : string)
    (db : Auth.DB) :
  let out := Auth.storeUserIfNotExists email0 name0 uuid t db in
  out.1 ≠ Ok () →
  Auth.Users out.2 = Auth.Users db ∧
  (Auth.failing db = true ∨
   Auth.fault db (S (length (Auth.calls db))) = true).
Proof.
  intros out. subst out.
  unfold Auth.storeUserIfNotExists, Auth.getUserByEmail, Auth.db_PutItem.
  destruct (Auth.failing db) eqn:F1; [intros _; split; [done|by left]| ].
  destruct (head _); [done| ].
  unfold Auth.failing, Auth.issue. simpl. rewrite length_app, Nat.add_1_r.
  destruct (Auth.fault db _); [intros _; split; [done|by right]|done].
Qed.

Lemma storeUserIfNotExists_failure_witness :
  let db := Auth.mkDB [] [] (λ k, bool_decide (k = 1%nat)) in
  let out := Auth.storeUserIfNotExists "a@x.org" "Ann" "id-1" "t1" db in
  out.1 ≠ Ok () ∧
  Auth.Users out.2 = Auth.Users db ∧
  (Auth.failing db = true ∨
   Auth.fault db (S (length (Auth.calls db))) = true).
Proof.
  assert ((Auth.storeUserIfNotExists "a@x.org" "Ann" "id-1" "t1"
             (Auth.mkDB [] [] (λ k, bool_decide (k = 1%nat)))).1 ≠ Ok ()) as H
    by (vm_compute; discriminate).
  split; [exact H| ].
  exact (storeUserIfNotExists_failure "a@x.org" "Ann" "id-1" "t1" _ H).
Defined.

Lemma storeUserIfNotExists_users (email0 name0 uuid t : string)
    (db : Auth.DB) :
  (Auth.storeUserIfNotExists email0 name0 uuid t db).1 = Ok () →
  Auth.Users (Auth.storeUserIfNotExists email0 name0 uuid t db).2
  = match filter (λ u, Auth.email u = email0) (Auth.Users db) with
    | [] => Auth.Users db ++ [Auth.mkItem uuid email0 name0 t "google"]
    | _ => Auth.Users db
    end.
Proof.
  unfold Auth.storeUserIfNotExists, Auth.getUserByEmail, Auth.db_PutItem.
  destruct (Auth.failing db); [done| ].
  destruct (filter _ (Auth.Users db)) as [ |u us]; [ |done].
  cbn [head]. by destruct (Auth.failing (Auth.issue _ db)).
Qed.

Lemma as_users_filter (email0 : string) (items : list Auth.Item) :
  filter (λ u, u_email u = email0)
    ((λ i, mkUser (Auth.userId i) (Auth.email i)) <$> items)
  = (λ i, mkUser (Auth.userId i) (Auth.email i))
      <$> filter (λ u, Auth.email u = email0) items.
Proof.
  induction items as [ |x xs IH]; [done| ].
  csimpl. rewrite !filter_cons. simpl.
  destruct (decide (Auth.email x = email0)); csimpl; by rewrite IH.
Qed.

(** X19. Provisioning and lookup compose: after a successful
    [storeUserIfNotExists] for an address, the words lambda, reading the
    resulting table with a store that answers and no cache entry,
    resolves the address and caches the id; the id is the new uuid when
    no item had the address before. *)
Theorem provisioned_user_resolves (email0 name0 uuid t : string)
    (db : Auth.DB) (g : Globals) (wdb : DB) :
  let out := Auth.storeUserIfNotExists email0 name0 uuid t db in
  out.1 = Ok () →
  Users wdb = Auth.as_users out.2 →
  failing wdb = false →
  userCache g !! email0 = None →
  ∃ id,
    (getUserIdByEmail email0 g wdb).1.1 = Ok id ∧
    userCache (getUserIdByEmail email0 g wdb).1.2 !! email0 = Some id ∧
    ((∀ u, u ∈ Auth.Users db → Auth.email u ≠ email0) → id = uuid).
Proof.
  intros out Hok Hus Hf Hc. subst out.
  unfold getUserIdByEmail, db_Query_users. rewrite Hc, Hf, Hus.
  unfold Auth.as_users. rewrite as_users_filter.
  rewrite (storeUserIfNotExists_users _ _ _ _ _ Hok).
  destruct (filter _ (Auth.Users db)) as [ |u us] eqn:Hfil.
  - rewrite filter_app, Hfil. simpl. rewrite filter_cons_True by done. simpl.
    exists uuid. by rewrite lookup_insert_eq.
  - rewrite Hfil. simpl. eexists. rewrite lookup_insert_eq.
    split_and!; [done|done| ].
    intros Hnone. exfalso.
    assert (u ∈ filter (λ u, Auth.email u = email0) (Auth.Users db))
      as [He Hu]%list_elem_of_filter by (rewrite Hfil; by left).
    by apply (Hnone u).
Qed.

Lemma provisioned_user_resolves_witness :
  let db := Auth.mkDB [] [] (λ _, false) in
  let out := Auth.storeUserIfNotExists "a@x.org" "Ann" "id-1" "t1" db in
  let wdb := mkDB [] (Auth.as_users out.2) ∅ [] (λ _, false) in
  let g := mkGlobals ∅ ∅ false (Scenario.const_rand 0) in
  (out.1 = Ok () ∧ Users wdb = Auth.as_users out.2 ∧ failing wdb = false ∧
   userCache g !! "a@x.org"%string = None) ∧
  ∃ id,
    (getUserIdByEmail "a@x.org" g wdb).1.1 = Ok id ∧
    userCache (getUserIdByEmail "a@x.org" g wdb).1.2 !! "a@x.org"%string
      = Some id ∧
    ((∀ u, u ∈ Auth.Users db → Auth.email u ≠ "a@x.org"%string) → id = "id-1"%string).
Proof.
  split; [split_and!; reflexivity| ].
  apply (provisioned_user_resolves "a@x.org" "Ann" "id-1" "t1"
           (Auth.mkDB [] [] (λ _, false))
           (mkGlobals ∅ ∅ false (Scenario.const_rand 0))); reflexivity.
Defined.

(** ** What every interleaving keeps *)

Lemma caller_step_keeps (c : Caller) (db : DB) (n : Z) :
  0 ≤ n → n + 1 ≤ max_int →
  healthy (n + 1) db → consistent db → pending_ok (n + 1) c →
  healthy n (caller_step c db).2 ∧ consistent (caller_step c db).2 ∧
  pending_ok n (caller_step c db).1.
Proof.
  intros Hn Hmax Hh Hcons Hp. destruct c as [u r|p|o]; simpl.
  - unfold uws_read, db_GetItem.
    assert (healthy n db) as Hh'
      by (intros k x Hx; destruct (Hh k x Hx); lia).
    destruct (failing db); [done| ].
    assert (∃ a s, match Stats db !! (u, wr_word r) with
                   | Some x => (attempts x, success x)
                   | None => (0, 0)
                   end = (a, s) ∧ 0 ≤ s ≤ a ∧ a + n + 1 ≤ max_int)
      as (a & s & Hc & Hs & Ha).
    { destruct (Stats db !! (u, wr_word r)) as [x| ] eqn:Hx.
      - destruct (Hh _ _ Hx). exists (attempts x), (success x).
        split_and!; [done|lia|lia|lia].
      - exists 0, 0. split_and!; [done|lia|lia|lia]. }
    destruct (bump_counters u r _ a s Hc Hs) as (q & -> & Hq); [lia| ].
    simpl. split_and!; try done; destruct (isCorrect r); simpl; lia.
  - unfold uws_write, db_UpdateItem. destruct Hp as (Hs & Ha & Hr).
    assert (healthy n db) as Hh'
      by (intros k x Hx; destruct (Hh k x Hx); lia).
    destruct (failing db); [done| ].
    destruct (p_ratio p) as [q| ] eqn:Hq; [ |done]. simpl.
    split_and!; [ | |done].
    + intros k x. simpl. rewrite lookup_insert. case_decide.
      * intros [= <-]. simpl. lia.
      * apply Hh'.
    + intros k x. simpl. rewrite lookup_insert. case_decide.
      * intros [= <-]. simpl. congruence.
      * apply Hcons.
  - split_and!; [ |done|done]. intros k x Hx. destruct (Hh k x Hx). lia.
Qed.

Lemma run_keeps (schedule : list nat) :
  ∀ cs db,
    Z.of_nat (length schedule) ≤ max_int →
    healthy (Z.of_nat (length schedule)) db → consistent db →
    Forall (pending_ok (Z.of_nat (length schedule))) cs →
    healthy 0 (run schedule cs db).2 ∧ consistent (run schedule cs db).2.
Proof.
  induction schedule as [ |t rest IH]; intros cs db Hmax Hh Hc Hp; [done| ].
  simpl length in *. rewrite Nat2Z.inj_succ in *. simpl.
  assert (Forall (pending_ok (Z.of_nat (length rest))) cs) as Hp'.
  { eapply Forall_impl; [exact Hp| ]. intros [u r|p|o]; simpl; [done| |done].
    intros (? & ? & ?). split_and!; [lia|lia|lia|done]. }
  destruct (cs !! t) as [c| ] eqn:Ht.
  - destruct (caller_step_keeps c db (Z.of_nat (length rest)))
      as (H1 & H2 & H3); [lia|lia|by rewrite Z.add_1_r|done| | ].
    { rewrite Z.add_1_r. by eapply Forall_lookup_1. }
    destruct (caller_step c db) as [c' db']. simpl in *.
    apply IH; [lia|done|done| ]. by apply Forall_insert.
  - apply IH; [lia| |done|done].
    intros k x Hx. destruct (Hh k x Hx). lia.
Qed.

(** X20. Whatever the schedule and whatever store calls fail,
    concurrent callers of [updateWordStatistics] never leave a record
    with success above attempts or below zero, nor a successRatio other
    than the one computed from the stored counters, provided the records
    they start from are so and have room for the schedule below the
    largest int. *)
Theorem run_keeps_invariants (schedule : list nat)
    (subs : list (string * WordResults)) (db : DB) :
  Z.of_nat (length schedule) ≤ max_int →
  healthy (Z.of_nat (length schedule)) db →
  consistent db →
  let out := run schedule ((λ s, Ready s.1 s.2) <$> subs) db in
  ∀ k x, Stats out.2 !! k = Some x →
         0 ≤ success x ≤ attempts x ∧
         ratio_text (success x) (attempts x) = Some (successRatio x).
Proof.
  intros Hmax Hh Hc out k x Hx.
  destruct (run_keeps schedule ((λ s, Ready s.1 s.2) <$> subs) db Hmax Hh Hc)
    as [H1 H2].
  { apply Forall_fmap, Forall_forall. by intros [u r] _. }
  split; [by destruct (H1 k x Hx)|exact (H2 k x Hx)].
Qed.

Lemma scenario_consistent : consistent Scenario.db1.
Proof.
  intros k x Hx. apply elem_of_map_to_list in Hx. revert Hx.
  replace (map_to_list (Stats Scenario.db1)) with
    [(("u1"%string, "C"%string), mkWordStatistics "u1" "C" 5 1 (1 # 5));
     (("u1"%string, "D"%string), mkWordStatistics "u1" "D" 5 2 (2 # 5))]
    by (vm_compute; reflexivity).
  rewrite !elem_of_cons.
  intros [[= _ ->]|[[= _ ->]|H]]; [vm_compute; reflexivity..| ].
  by apply elem_of_nil in H.
Qed.

(** Three callers, the reads and writes of the first two interleaved. *)
Lemma run_keeps_invariants_witness :
  let schedule := [0; 1; 0; 1; 2]%nat in
  let subs := [("u1"%string, mkWordResults "C" true);
               ("u1"%string, mkWordResults "C" false);
               ("u1"%string, mkWordResults "A" true)] in
  let out := run schedule ((λ s, Ready s.1 s.2) <$> subs) Scenario.db1 in
  (Z.of_nat (length schedule) ≤ max_int ∧
   healthy (Z.of_nat (length schedule)) Scenario.db1 ∧
   consistent Scenario.db1) ∧
  ∀ k x, Stats out.2 !! k = Some x →
         0 ≤ success x ≤ attempts x ∧
         ratio_text (success x) (attempts x) = Some (successRatio x).
Proof.
  assert (healthy (Z.of_nat (length [0; 1; 0; 1; 2]%nat)) Scenario.db1) as Hh.
  { apply (healthy_mono _ 1000); [simpl; lia|exact scenario_healthy]. }
  split; [split_and!; [vm_compute; discriminate|exact Hh|exact scenario_consistent] | ].
  apply (run_keeps_invariants [0; 1; 0; 1; 2]%nat
           [("u1"%string, mkWordResults "C" true);
            ("u1"%string, mkWordResults "C" false);
            ("u1"%string, mkWordResults "A" true)] Scenario.db1);
    [vm_compute; discriminate|exact Hh|exact scenario_consistent].
Defined.
